(** * lnsimulator/script.js : network generation, routing and formatting

    A shallow embedding of the algorithmic core of [script.js]:
    - [findPathWithCapacity], the breadth-first router over the channel list;
    - [formatCapacity], on IEEE-754 doubles (Rocq's primitive floats);
    - [generateNetwork] and [generateCapacity], on doubles, with
      [Math.random] as an injected stream of draws;
    - the tooltip, the dropdowns, the highlights and [animateTransaction],
      whose inner [animate] is entered once per hop, each time against the
      [nodes] array of that moment.
    The geometry of [updateChannels] and of the moving marker is left out. *)

From Stdlib Require Import ZArith QArith List Bool Lia String Ascii DecimalString.
From Stdlib Require Import DecimalPos DecimalN.
From Stdlib Require Import Floats.
From stdpp Require Import base gmap sets list list_numbers.

Open Scope Z_scope.

(** ** Channels

    [channels.push({element, start, end, capacity})]: the DOM [element] is
    dropped; [end] is a Rocq keyword, hence [end_]. Node identities, capacities
    and payment amounts are integer-valued JS numbers. *)
Module Channel.
Record t : Type := mk { start : Z; end_ : Z; capacity : Z }.
End Channel.
Export Channel.
Abbreviation channel := Channel.t.

(** ** Router: [findPathWithCapacity] *)
Section Router.
(** The global [channels] array. *)
Variable channels : list channel.

(** The predicate handed to [channels.find]:
    [(c.start === a && c.end === b) || (c.end === a && c.start === b)]. *)
Definition joins (c : channel) (a b : Z) : bool :=
  (start c =? a) && (end_ c =? b) || (end_ c =? a) && (start c =? b).

(** [Array.prototype.every], whose callback receives (element, index). *)
Fixpoint every_from {A : Type} (f : A -> nat -> bool) (index : nat) (l : list A) : bool :=
  match l with
  | [] => true
  | x :: l' => f x index && every_from f (S index) l'
  end.

Definition every {A : Type} (f : A -> nat -> bool) (l : list A) : bool :=
  every_from f 0%nat l.

(** [isPathValid]: every hop of [path] is the first stored channel between
    its two nodes, and that channel carries [amount]. [path[index + 1]] is
    [undefined] past the end; no channel joins [undefined], so [find] fails
    and the callback is falsy. *)
Definition isPathValid (amount : Z) (path : list Z) : bool :=
  every (fun node index =>
    if Nat.eqb index (length path - 1) then true
    else match path !! S index with
         | Some next =>
           match List.find (fun c => joins c node next) channels with
           | Some ch => amount <=? capacity ch
           | None => false
           end
         | None => false
         end) path.

(** [channels.filter(...).map(...)]: the far ends of the channels at [node]
    that carry [amount], in storage order. *)
Definition neighbors (amount node : Z) : list Z :=
  (fun c => if start c =? node then end_ c else start c) <$>
    List.filter
      (fun c => ((start c =? node) || (end_ c =? node)) && (amount <=? capacity c))
      channels.

(** The [while (queue.length > 0)] loop, one iteration per unit of fuel.
    [None] means the fuel ran out ([bfs_total] shows it never does from
    [findPathWithCapacity]); [Some []] is the final [return []].
    An empty path in the queue would make [node] [undefined]: it equals no
    node and has no neighbours, so the iteration only drops the path. *)
Fixpoint bfs (end_node amount : Z) (fuel : nat)
    (visited : gset Z) (queue : list (list Z)) : option (list Z) :=
  match queue with
  | [] => Some []
  | path :: queue' =>
    match fuel with
    | O => None
    | S fuel' =>
      match last path with
      | None => bfs end_node amount fuel' visited queue'
      | Some node =>
        if (node =? end_node) && isPathValid amount path then Some path
        else if decide (node ∈ visited) then bfs end_node amount fuel' visited queue'
        else bfs end_node amount fuel' ({[node]} ∪ visited)
               (queue' ++ ((fun neighbor => path ++ [neighbor]) <$> neighbors amount node))
      end
    end
  end.

(** [findPathWithCapacity(start, end, amount)]. Every iteration either
    drops a path or expands a node for the first time, so
    [2 * channels.length + 1] iterations are enough. *)
Definition findPathWithCapacity (start_node end_node amount : Z) : option (list Z) :=
  bfs end_node amount (S (2 * length channels)) ∅ [[start_node]].
End Router.

(** ** Formatting: [formatCapacity] *)
Section Format.
(** [Number::toString] on a finite double of magnitude at least 10^21, the
    only case where [toFixed] defers to it with a value that is neither
    [NaN] nor infinite. It is a built-in outside the repository. *)
Variable Number_toString : float -> string.

Definition decimal (n : Z) : string := NilZero.string_of_uint (N.to_uint (Z.to_N n)).

Fixpoint zeros (k : nat) : string :=
  match k with
  | O => EmptyString
  | S k' => String "0"%char (zeros k')
  end.

(** Steps 8 to 10 of [Number.prototype.toFixed]: the digits of [n], padded
    to [fractionDigits + 1] characters, with the point inserted. *)
Definition place_point (n : Z) (fractionDigits : nat) : string :=
  let m := decimal n in
  if Nat.eqb fractionDigits 0 then m
  else
    let k := String.length m in
    let m := if (k <=? fractionDigits)%nat then (zeros (fractionDigits + 1 - k) ++ m)%string else m in
    let k := String.length m in
    (substring 0 (k - fractionDigits) m ++ "." ++ substring (k - fractionDigits) fractionDigits m)%string.

(** [x.toFixed(fractionDigits)] on a double. A finite [x] is the exact
    rational [±m·2^e = ±num/den]; [n] is the integer nearest to
    [x·10^fractionDigits], the larger one on a tie. *)
Definition toFixed (x : float) (fractionDigits : nat) : string :=
  match Prim2SF x with
  | S754_nan => "NaN"
  | S754_infinity s => if s then "-Infinity" else "Infinity"
  | S754_zero _ => place_point 0 fractionDigits
  | S754_finite s m e =>
    let sign := if s then "-"%string else ""%string in
    let num := Z.pos m * 2 ^ Z.max e 0 in
    let den := 2 ^ Z.max (- e) 0 in
    if 10 ^ 21 * den <=? num then (sign ++ Number_toString (abs x))%string
    else
      let n := (2 * num * 10 ^ Z.of_nat fractionDigits + den) / (2 * den) in
      (sign ++ place_point n fractionDigits)%string
  end.

Definition formatCapacity (sats : float) : string :=
  if (100000000 <=? sats)%float
  then (toFixed (sats / 100000000)%float 2 ++ " BTC")%string
  else (toFixed (sats / 1000000)%float 2 ++ "m sats")%string.
End Format.

(** [getChannelClass]: the CSS class put on a channel's element; it is not
    stored in the channel and the router never reads it. *)
Inductive channel_class : Type := small | medium | large.

Definition getChannelClass (capacity : Z) : channel_class :=
  if capacity <? 20000000 then small
  else if capacity <? 50000000 then medium
  else large.

(** ** Generator: [generateNetwork] *)

(** A node element: its label and the two random coordinates, the doubles
    that [style.left] and [style.top] print before ["px"]. *)
Record node : Type := mkNode { textContent : string; style_left : float; style_top : float }.

(** The module state written by [generateNetwork]: the two global arrays and
    the number of [Math.random()] calls made so far. *)
Record page : Type := mkPage { nodes : list node; channels : list channel; draws : nat }.

(** State passing over the page, in the order the script runs. *)
Definition M (A : Type) : Type := page -> A * page.
Definition ret {A : Type} (a : A) : M A := fun s => (a, s).
Definition bind {A B : Type} (m : M A) (k : A -> M B) : M B :=
  fun s => let (a, s') := m s in k a s'.

Notation "'let*' x ':=' m 'in' k" := (bind m (fun x => k))
  (at level 10, x name, m at level 100, k at level 200).
Notation "m '>>' k" := (bind m (fun _ => k))
  (at level 100, k at level 200, right associativity).

(** The JS number that holds the integer [z] (exact whenever [z] is a
    double, in particular below 2^53). *)
Definition Number_of_Z (z : Z) : float := SF2Prim (binary_normalize prec emax z 0 false).

(** [Math.floor] on a double, as the integer it denotes: a finite
    [±m·2^e] is floored exactly; [NaN] and the infinities, which
    [Math.floor] returns unchanged, denote no integer. *)
Definition Math_floor (x : float) : option Z :=
  match Prim2SF x with
  | S754_zero _ => Some 0
  | S754_finite s m e =>
    let n := if s then Z.neg m else Z.pos m in
    Some (if 0 <=? e then n * 2 ^ e else n / 2 ^ (- e))
  | _ => None
  end.

Section Generator.
(** [Math.random]: the k-th call returns the double [random k]. Products
    are the rounded products of IEEE-754 and comparisons are those of
    doubles. *)
Variable random : nat -> float.

Definition Math_random : M float :=
  fun s => (random (draws s), mkPage (nodes s) (channels s) (S (draws s))).

Definition push_node (n : node) : M unit :=
  fun s => (tt, mkPage (nodes s ++ [n]) (channels s) (draws s)).

Definition push_channel (c : channel) : M unit :=
  fun s => (tt, mkPage (nodes s) (channels s ++ [c]) (draws s)).

(** [for (let i = lo; i < hi; i++) body(i)]. *)
Definition for_range (lo hi : Z) (body : Z -> M unit) : M unit :=
  fun s => (tt, fold_left (fun s i => snd (body i s)) (seqZ lo (hi - lo)) s).

Definition capacities : list Z :=
  [5000000; 10000000; 20000000; 30000000; 40000000; 50000000;
   60000000; 70000000; 80000000; 90000000; 100000000; 200000000].

(** [capacities[Math.floor(Math.random() * capacities.length)]]: the
    product is rounded to a double before it is floored. An index that is
    no position of the array reads [undefined], rendered here as [0], which
    is not one of the capacities. *)
Definition generateCapacity : M Z :=
  let* r := Math_random in
  ret match Math_floor (r * Number_of_Z (Z.of_nat (length capacities))) with
      | Some index => if index <? 0 then 0 else default 0 (capacities !! Z.to_nat index)
      | None => 0
      end.

(** [String.fromCharCode(65 + i % 26) + (i >= 26 ? Math.floor(i / 26) : '')]. *)
Definition label (i : Z) : string :=
  (String (ascii_of_N (Z.to_N (65 + i mod 26))) EmptyString
     ++ (if (26 <=? i)%Z then decimal (i / 26) else ""))%string.

(** [channelProbability] is the double [parseFloat] has read. *)
Definition generateNetwork (numNodes : Z) (channelProbability : float) : page :=
  snd ((for_range 0 numNodes (fun i =>
          let* x := Math_random in
          let* y := Math_random in
          push_node (mkNode (label i) (x * 760) (y * 560))) >>
        for_range 0 numNodes (fun i =>
          for_range (i + 1) numNodes (fun j =>
            let* r := Math_random in
            if (r <? channelProbability)%float
            then let* capacity := generateCapacity in
                 push_channel (Channel.mk i j capacity)
            else ret tt)))
       (mkPage [] [] 0)).
End Generator.

(** ** Specification vocabulary *)
Section Vocabulary.
Variable channels : list channel.

(** [c] is a channel between [u] and [v], in either direction. *)
Definition connects (c : channel) (u v : Z) : Prop :=
  (start c = u ∧ end_ c = v) ∨ (end_ c = u ∧ start c = v).

(** A capacity-eligible hop: some stored channel between [u] and [v]
    carries [amount]. *)
Definition eligible (amount u v : Z) : Prop :=
  ∃ c, c ∈ channels ∧ connects c u v ∧ amount ≤ capacity c.

(** [p] is a path of capacity-eligible channels from [s] to [t]. *)
Definition eligible_path (amount s t : Z) (p : list Z) : Prop :=
  head p = Some s ∧ last p = Some t ∧
  ∀ (i : nat) (u v : Z), p !! i = Some u → p !! S i = Some v → eligible amount u v.

(** The same paths, grown hop by hop at the far end as the router does. *)
Inductive reach (amount s : Z) : list Z → Z → Prop :=
| reach_start : reach amount s [s] s
| reach_hop p u v : reach amount s p u → eligible amount u v → reach amount s (p ++ [v]) v.

(** The data-model invariant: at most one channel per unordered pair. *)
Definition unordered_pair (c : channel) : Z * Z :=
  (Z.min (start c) (end_ c), Z.max (start c) (end_ c)).

Definition no_parallel : Prop := NoDup (unordered_pair <$> channels).

Definition in_range (numNodes v : Z) : Prop := 0 ≤ v < numNodes.

(** Every channel joins two distinct valid node indices. *)
Definition endpoints_ok (numNodes : Z) : Prop :=
  Forall (λ c, in_range numNodes (start c) ∧ in_range numNodes (end_ c) ∧ start c ≠ end_ c)
         channels.

(** [isPathValid] hop by hop. *)
Definition hop_ok (amount u v : Z) : bool :=
  match List.find (fun c => joins c u v) channels with
  | Some ch => amount <=? capacity ch
  | None => false
  end.

Fixpoint hops_ok (amount : Z) (l : list Z) : bool :=
  match l with
  | [] => true
  | u :: r => match r with [] => true | v :: _ => hop_ok amount u v end && hops_ok amount r
  end.

(** Loop invariants of [bfs], for source [s] and target [t]. Every queued
    path was grown from [s]. *)
Definition grown (amount s : Z) (queue : list (list Z)) : Prop :=
  Forall (λ p, ∃ v, reach amount s p v) queue.

(** A queued path is a duplicate-free run of visited nodes plus one more
    node, and it runs through [t] only if the final check refused it there. *)
Definition tidy (amount t : Z) (visited : gset Z) (p : list Z) : Prop :=
  ∃ q x, p = q ++ [x] ∧ NoDup q ∧ (∀ y, y ∈ q → y ∈ visited) ∧
         (t ∈ q → isPathValid channels amount q = false).

Definition ends_at (v : Z) (queue : list (list Z)) : Prop :=
  ∃ q, q ∈ queue ∧ last q = Some v.

(** The queue is [A ++ B]: paths of [L] nodes, then paths of [L + 1]
    nodes. Every node within [L - 1] nodes of [s] is visited, every node
    at [L] is visited or waits in [A], and the visited set is closed under
    eligible hops up to the queue. *)
Record layered (amount s t : Z) (L : nat) (A B : list (list Z)) (visited : gset Z) : Prop :=
  { lay_pos : (1 ≤ L)%nat;
    lay_A : Forall (λ p, length p = L) A;
    lay_B : Forall (λ p, length p = S L) B;
    lay_grown : grown amount s (A ++ B);
    lay_target : t ∉ visited;
    lay_below : ∀ p v, reach amount s p v → (length p < L)%nat → v ∈ visited;
    lay_level : ∀ p v, reach amount s p v → length p = L → v ∈ visited ∨ ends_at v A;
    lay_closed : ∀ u v, u ∈ visited → eligible amount u v →
                        v ∈ visited ∨ ends_at v (A ++ B) }.

(** Work left for the loop: each channel that carries [amount] still owes
    one neighbour per unvisited endpoint. *)
Definition owed (amount : Z) (visited : gset Z) (c : channel) : nat :=
  if amount <=? capacity c
  then ((if decide (start c ∈ visited) then 0 else 1)
        + (if decide (end_ c ∈ visited ∨ end_ c = start c) then 0 else 1))%nat
  else 0%nat.

Fixpoint potential (amount : Z) (visited : gset Z) (l : list channel) : nat :=
  match l with
  | [] => 0%nat
  | c :: l' => (owed amount visited c + potential amount visited l')%nat
  end.
End Vocabulary.

(** The caller's reading of the result: [path.length === 0] is not-found. *)
Definition not_found (path : list Z) : Prop := path = [].

(** Three nodes in a line, and the same with a direct channel added. *)
Definition line_net : list channel :=
  [Channel.mk 0 1 10000000; Channel.mk 1 2 10000000].

Definition triangle_net : list channel :=
  [Channel.mk 0 1 10000000; Channel.mk 1 2 10000000; Channel.mk 0 2 20000000].

(** ** The rest of the page: classes, tooltip, dropdowns, highlights, payment

    [updateChannels] is left out: it only writes pixel geometry computed
    with [Math.log], [Math.atan2] and [getBoundingClientRect]. *)

(** The order of the three classes, for stating monotonicity. *)
Definition class_rank (k : channel_class) : nat :=
  match k with small => 0 | medium => 1 | large => 2 end%nat.

(** The tooltip element: text, position in pixels, opacity. *)
Record tooltip : Type :=
  mkTooltip { tip_text : string; tip_left : Q; tip_top : Q; tip_opacity : Z }.

Section Tooltip.
Variable Number_toString : float -> string.

(** [showTooltip(event, capacity)], with [event.pageX] and [event.pageY]. *)
Definition showTooltip (pageX pageY : Q) (capacity : Z) (t : tooltip) : tooltip :=
  mkTooltip ("Capacity: " ++ formatCapacity Number_toString (Number_of_Z capacity))%string
            (pageX + 10) (pageY + 10) 1.

Definition hideTooltip (t : tooltip) : tooltip :=
  mkTooltip (tip_text t) (tip_left t) (tip_top t) 0.
End Tooltip.

(** An [<option>] of a node dropdown. Its [value] is kept as the number it
    is read back as by [parseInt]. *)
Record select_option : Type := mkOption { value : Z; option_text : string }.

(** [populateNodeDropdowns]: both selects are emptied and get one option per
    node, in array order; the result is (sender options, receiver options). *)
Definition populateNodeDropdowns (nodes : list node) : list select_option * list select_option :=
  let options := imap (fun index nd => mkOption (Z.of_nat index) (textContent nd)) nodes in
  (options, options).

(** Which elements carry the class [highlighted]: nodes by index in [nodes],
    channel elements by index in [channels]. *)
Record highlights : Type := mkHl { hl_nodes : gset nat; hl_channels : gset nat }.

(** How a function ends: normally, or by a [TypeError] on reading a property
    of [undefined], with the state reached by then. *)
Inductive completion (A : Type) : Type :=
| Normal (a : A)
| Thrown (a : A).
Arguments Normal {A} a.
Arguments Thrown {A} a.

(** What the user sees of a payment. The frames of one hop of the marker
    follow the clock and are not distinguished. *)
Inductive event : Type :=
| Alert (message : string)
| Move (from to : Z)
| TypeError.

Record outcome : Type := mkOutcome { events : list event; shown : highlights }.

(** The position of the element [Array.prototype.find] returns. *)
Fixpoint find_index {A : Type} (f : A -> bool) (l : list A) (k : nat) : option nat :=
  match l with
  | [] => None
  | x :: l' => if f x then Some k else find_index f l' (S k)
  end.

Section Payment.
Variable Number_toString : float -> string.
(** The global [nodes] and [channels] arrays. *)
Variable nodes : list node.
Variable channels : list channel.

(** [nodes[i]]: [undefined] outside the array. *)
Definition node_at (i : Z) : option node :=
  if i <? 0 then None else nodes !! Z.to_nat i.

(** [clearHighlights]: the class is removed from every channel element and
    every node of the two arrays. *)
Definition clearHighlights (h : highlights) : highlights :=
  mkHl (hl_nodes h ∖ list_to_set (seq 0 (length nodes)))
       (hl_channels h ∖ list_to_set (seq 0 (length channels))).

(** The callback of [path.forEach] in [highlightPath], run over the part [l]
    of [path] that starts at index [i]. The channel of the hop, if [find]
    meets one, is marked first; then the node, which throws when
    [nodes[nodeIndex]] is [undefined]. *)
Fixpoint highlight_from (path : list Z) (i : nat) (l : list Z) (h : highlights)
    : completion highlights :=
  match l with
  | [] => Normal h
  | nodeIndex :: l' =>
    let h1 :=
      if (i <? length path - 1)%nat
      then match path !! S i with
           | Some next =>
             match find_index (fun c => joins c nodeIndex next) channels 0 with
             | Some k => mkHl (hl_nodes h) ({[k]} ∪ hl_channels h)
             | None => h
             end
           | None => h
           end
      else h in
    match node_at nodeIndex with
    | Some _ =>
      highlight_from path (S i) l'
        (mkHl ({[Z.to_nat nodeIndex]} ∪ hl_nodes h1) (hl_channels h1))
    | None => Thrown h1
    end
  end.

Definition highlightPath (path : list Z) (h : highlights) : completion highlights :=
  highlight_from path 0 path h.

(** The alert texts of [animateTransaction]. *)
Definition same_node_alert : string := "Sender and receiver must be different nodes.".

Definition no_path_alert (paymentAmount : Z) : string :=
  ("No path found for the payment of "
   ++ formatCapacity Number_toString (Number_of_Z paymentAmount)
   ++ ". Try a smaller amount or choose different nodes.")%string.

Definition success_alert (paymentAmount : Z) (sender receiver : node) : string :=
  ("Payment of " ++ formatCapacity Number_toString (Number_of_Z paymentAmount)
   ++ " successfully sent from Node " ++ textContent sender
   ++ " to Node " ++ textContent receiver)%string.

(** One entry of the inner [animate], with [step] as it stands and the
    global [nodes] as it is at that moment. Past the last hop it shows the
    success alert, reading the labels of [nodes[senderIndex]] and
    [nodes[receiverIndex]]; otherwise it reads [nodes[path[step]]] and
    [nodes[path[step + 1]]] and starts the marker between them. Either read
    throws on [undefined]. The hop lasts a second of frame callbacks, the
    last of which increments [step] and enters [animate] again. *)
Definition animate (path : list Z) (senderIndex receiverIndex paymentAmount : Z)
    (step : nat) : event :=
  if (length path - 1 <=? step)%nat
  then match node_at senderIndex, node_at receiverIndex with
       | Some sender, Some receiver => Alert (success_alert paymentAmount sender receiver)
       | _, _ => TypeError
       end
  else match path !! step, path !! S step with
       | Some a, Some b =>
         match node_at a, node_at b with
         | Some _, Some _ => Move a b
         | _, _ => TypeError
         end
       | _, _ => TypeError
       end.

(** [animateTransaction], on the three numbers [parseInt] has read, taken to
    be integers (a field that does not parse reads as [NaN], which this
    model leaves out). The call itself makes the first entry of [animate]
    and returns; [events] is what it shows by then. [None] only if the
    router ran out of fuel, which it never does. *)
Definition animateTransaction (h : highlights) (senderIndex receiverIndex paymentAmount : Z)
    : option outcome :=
  if senderIndex =? receiverIndex then Some (mkOutcome [Alert same_node_alert] h)
  else
    match findPathWithCapacity channels senderIndex receiverIndex paymentAmount with
    | None => None
    | Some path =>
      if Nat.eqb (length path) 0
      then Some (mkOutcome [Alert (no_path_alert paymentAmount)] h)
      else match highlightPath path (clearHighlights h) with
           | Thrown h' => Some (mkOutcome [TypeError] h')
           | Normal h' =>
             Some (mkOutcome [animate path senderIndex receiverIndex paymentAmount 0] h')
           end
    end.
End Payment.

(** The entries of [animate] one payment makes, the first from
    [animateTransaction] and the later ones from frame callbacks. Entry
    [step] reads the [nodes] array of its own moment, [arrays step]: a click
    on Regenerate in between has replaced the array. An entry that starts a
    hop is followed by the next one; the alert or a [TypeError] is the last
    event. One unit of fuel per entry. *)
Fixpoint animation (Number_toString : float -> string) (arrays : nat -> list node)
    (path : list Z) (senderIndex receiverIndex paymentAmount : Z)
    (fuel step : nat) : list event :=
  match fuel with
  | O => []
  | S fuel' =>
    match animate Number_toString (arrays step) path senderIndex receiverIndex
            paymentAmount step with
    | Move a b =>
      Move a b :: animation Number_toString arrays path senderIndex receiverIndex
                    paymentAmount fuel' (S step)
    | e => [e]
    end
  end.

(** The part of the rounding error [binary_round_aux] may add to the
    mantissa [M] at exponent [E]: half a unit of the last place kept. *)
Definition half_ulp (M E : Z) : Z :=
  let n := fexp prec emax (Zdigits2 M + E) - E in
  if 0 <? n then 2 ^ (n - 1) else 0.

(** Draws used in the examples: one half; and the double next below 5/6,
    whose product with 12 is rounded up to 10. *)
Definition draw_half : nat -> float := fun _ => 0.5%float.

Definition draw_five_sixths : nat -> float :=
  fun _ => SF2Prim (S754_finite false 7505999378950826 (-53)).

Definition draw_mixed : nat -> float :=
  fun k => if Nat.even k then 0.25%float else SF2Prim (S754_finite false 7505999378950826 (-53)).

(** The three nodes of the line and triangle networks. *)
Definition three_nodes : list node :=
  [mkNode "A" 0 0; mkNode "B" 0 0; mkNode "C" 0 0].

(** Storage order of the generator: by [start], then by [end]. *)
Definition stored_before (c d : channel) : Prop :=
  start c < start d ∨ (start c = start d ∧ end_ c < end_ d).

(** ** Facts about the router's building blocks *)
Section RouterBlocks.
Context (channels : list channel).

Lemma joins_spec c u v : joins c u v = true ↔ connects c u v.
Proof.
  unfold joins, connects.
  rewrite orb_true_iff, !andb_true_iff, !Z.eqb_eq. tauto.
Qed.

Lemma neighbors_spec amount u v :
  v ∈ neighbors channels amount u ↔ eligible channels amount u v.
Proof.
  unfold neighbors, eligible. rewrite list_elem_of_fmap. split.
  - intros (c & Hv & Hin). symmetry in Hv.
    apply list_elem_of_In, filter_In in Hin as [Hin Hc].
    apply andb_true_iff in Hc as [Hc Hcap]. apply Z.leb_le in Hcap.
    apply orb_true_iff in Hc. rewrite !Z.eqb_eq in Hc.
    exists c. rewrite list_elem_of_In. split; [done|]. split; [|done].
    unfold connects. destruct (Z.eqb_spec (start c) u) as [Hs|Hs].
    + left. done.
    + right. destruct Hc; done.
  - intros (c & Hin & Hc & Hcap). exists c. split.
    + destruct Hc as [[Hs He]|[He Hs]]; destruct (Z.eqb_spec (start c) u); congruence.
    + apply list_elem_of_In, filter_In. split; [by apply list_elem_of_In|].
      apply andb_true_iff. split; [|by apply Z.leb_le].
      apply orb_true_iff. destruct Hc as [[Hs He]|[He Hs]]; [left|right]; by apply Z.eqb_eq.
Qed.

Lemma every_from_hops amount (path pre l : list Z) (n : nat) :
  path = pre ++ l → n = length pre →
  every_from (fun node index =>
    if Nat.eqb index (length path - 1) then true
    else match path !! S index with
         | Some next => hop_ok channels amount node next
         | None => false
         end) n l = hops_ok channels amount l.
Proof.
  revert pre n. induction l as [|u r IH]; intros pre n Hpath Hn; [done|].
  cbn [every_from hops_ok].
  rewrite (IH (pre ++ [u]) (S n)); cycle 1.
  { by rewrite <- (assoc_L (++)). }
  { rewrite length_app. cbn [length]. lia. }
  f_equal. subst path n. rewrite length_app. cbn [length].
  destruct r as [|v r'].
  - cbn [length]. replace (length pre + 1 - 1)%nat with (length pre) by lia.
    by rewrite Nat.eqb_refl.
  - cbn [length].
    destruct (Nat.eqb_spec (length pre) (length pre + S (S (length r')) - 1)); [lia|].
    rewrite lookup_app_r by lia.
    replace (S (length pre) - length pre)%nat with 1%nat by lia. done.
Qed.

Lemma isPathValid_hops amount path :
  isPathValid channels amount path = hops_ok channels amount path.
Proof. by apply (every_from_hops amount path [] path 0%nat). Qed.

Lemma hops_ok_snoc amount l x :
  hops_ok channels amount (l ++ [x]) =
  hops_ok channels amount l &&
    match last l with Some u => hop_ok channels amount u x | None => true end.
Proof.
  induction l as [|u r IH]; [done|].
  cbn [app hops_ok]. rewrite IH. destruct r as [|v r']; cbn [app last].
  - by rewrite andb_true_r.
  - by rewrite andb_assoc.
Qed.

(** Validity is closed under dropping the last node. *)
Lemma isPathValid_prefix amount l x :
  isPathValid channels amount (l ++ [x]) = true → isPathValid channels amount l = true.
Proof.
  rewrite !isPathValid_hops, hops_ok_snoc. intros H. by apply andb_true_iff in H as [? _].
Qed.
End RouterBlocks.

(** ** Paths grown hop by hop are exactly the capacity-eligible paths *)
Section Reach.
Context (channels : list channel) (amount s : Z).

Lemma reach_last p v : reach channels amount s p v → last p = Some v.
Proof. intros [|q u w _ _]; [done|apply last_snoc]. Qed.

Lemma reach_head p v : reach channels amount s p v → head p = Some s.
Proof.
  induction 1 as [|p u v _ IH _]; [done|].
  destruct p; [done|]. by cbn in *.
Qed.

Lemma reach_nonempty p v : reach channels amount s p v → (1 ≤ length p)%nat.
Proof. intros [|q u w _ _]; [cbn; lia|]. rewrite length_app. cbn. lia. Qed.

Lemma reach_hops p v i a b :
  reach channels amount s p v → p !! i = Some a → p !! S i = Some b →
  eligible channels amount a b.
Proof.
  intros Hr. revert i a b. induction Hr as [|p u v Hr IH He]; intros i a b Ha Hb.
  - destruct i; done.
  - destruct (decide (S i < length p)%nat) as [Hlt|Hge].
    + rewrite lookup_app_l in Ha by lia. rewrite lookup_app_l in Hb by lia. eauto.
    + assert (S i = length p) as Hi.
      { apply lookup_lt_Some in Hb. rewrite length_app in Hb. cbn in Hb. lia. }
      rewrite lookup_app_l in Ha by lia.
      rewrite lookup_app_r in Hb by lia.
      rewrite Hi, Nat.sub_diag in Hb. cbn in Hb.
      apply reach_last in Hr. rewrite last_lookup, <- Hi in Hr. cbn in Hr.
      congruence.
Qed.

Lemma reach_path p t : reach channels amount s p t → eligible_path channels amount s t p.
Proof.
  intros Hr. split; [by eapply reach_head|]. split; [by eapply reach_last|].
  intros i u v. by apply reach_hops with t.
Qed.

Lemma path_reach p t : eligible_path channels amount s t p → reach channels amount s p t.
Proof.
  revert t. induction p as [|x q IH] using rev_ind; intros t (Hh & Hl & Hhops); [done|].
  rewrite last_snoc in Hl. injection Hl as ->.
  destruct (last q) as [u|] eqn:Hu.
  - apply reach_hop with u.
    + apply IH. split; [|split; [done|]].
      * destruct q; [done|]. by cbn in *.
      * intros i a b Ha Hb. apply (Hhops i a b).
        -- apply lookup_app_l_Some, Ha.
        -- apply lookup_app_l_Some, Hb.
    + rewrite last_lookup in Hu.
      assert (length q ≠ 0)%nat by (destruct q; [done|cbn; lia]).
      eapply (Hhops (pred (length q))).
      * by apply lookup_app_l_Some.
      * replace (S (pred (length q))) with (length q) by lia.
        rewrite lookup_app_r by lia. by rewrite Nat.sub_diag.
  - apply last_None in Hu. subst q. cbn in Hh. injection Hh as ->. constructor.
Qed.

(** A path that leaves [s] uses a channel at [s] and one at its far end. *)
Lemma reach_endpoints p v :
  reach channels amount s p v → v ≠ s →
  (∃ x, eligible channels amount s x) ∧ (∃ u, eligible channels amount u v).
Proof.
  intros Hr Hne. split.
  - induction Hr as [|p u v Hr IH He]; [done|].
    destruct (decide (u = s)) as [->|Hus]; [by exists v|]. by apply IH.
  - destruct Hr as [|p u v _ He]; [done|]. by exists u.
Qed.
End Reach.

(** ** The loop terminates within its fuel *)
Section Termination.
Context (amount : Z).

Lemma potential_bound visited l : (potential amount visited l ≤ 2 * length l)%nat.
Proof.
  induction l as [|c l IH]; cbn [potential length]; [lia|].
  enough (owed amount visited c ≤ 2)%nat by lia.
  unfold owed. destruct (amount <=? capacity c); repeat case_decide; lia.
Qed.

(** Expanding a fresh node pays exactly one owed neighbour per pushed path. *)
Lemma potential_visit visited node l :
  node ∉ visited →
  (potential amount ({[node]} ∪ visited) l + length (neighbors l amount node))%nat
  = potential amount visited l.
Proof.
  intros Hfresh. induction l as [|c l IH]; [done|].
  unfold neighbors in *. cbn [potential List.filter].
  assert ((owed amount ({[node]} ∪ visited) c
          + (if ((start c =? node)%Z || (end_ c =? node)%Z) && (amount <=? capacity c)%Z
             then 1 else 0))%nat = owed amount visited c) as Hc.
  { unfold owed. destruct (amount <=? capacity c); [|by rewrite andb_false_r].
    rewrite andb_true_r.
    destruct (Z.eqb_spec (start c) node) as [Hs|Hs];
      destruct (Z.eqb_spec (end_ c) node) as [He|He]; cbn [orb];
      repeat case_decide; try reflexivity; exfalso;
      rewrite ?elem_of_union, ?elem_of_singleton in *; intuition congruence. }
  destruct (((start c =? node) || (end_ c =? node)) && (amount <=? capacity c));
    cbn [fmap list_fmap length]; lia.
Qed.

Lemma bfs_total channels t fuel visited queue :
  (length queue + potential amount visited channels ≤ fuel)%nat →
  is_Some (bfs channels t amount fuel visited queue).
Proof.
  revert visited queue. induction fuel as [|fuel IH]; intros visited queue Hfuel.
  - destruct queue; [by eexists|cbn in Hfuel; lia].
  - destruct queue as [|path queue]; [by eexists|].
    cbn [bfs length] in *. destruct (last path) as [node|].
    + destruct ((node =? t) && isPathValid channels amount path); [by eexists|].
      case_decide as Hv.
      * apply IH. lia.
      * apply IH. rewrite length_app, length_fmap.
        pose proof (potential_visit visited node channels Hv). lia.
    + apply IH. lia.
Qed.

Lemma findPathWithCapacity_total channels s t :
  is_Some (findPathWithCapacity channels s t amount).
Proof.
  apply bfs_total. pose proof (potential_bound ∅ channels). cbn [length]. lia.
Qed.
End Termination.

(** ** What the search returns, on any channel list *)
Section Search.
Context (channels : list channel) (s t amount : Z).

Lemma bfs_sound fuel visited queue r :
  grown channels amount s queue →
  bfs channels t amount fuel visited queue = Some r → r ≠ [] →
  reach channels amount s r t.
Proof.
  revert visited queue. induction fuel as [|fuel IH]; intros visited queue Hq Hr Hne.
  - destruct queue; cbn in Hr; congruence.
  - destruct queue as [|path queue]; cbn in Hr; [congruence|].
    apply Forall_cons in Hq as [(v & Hv) Hq].
    rewrite (reach_last _ _ _ _ _ Hv) in Hr.
    destruct ((v =? t) && isPathValid channels amount path) eqn:Hc.
    + injection Hr as <-. apply andb_true_iff in Hc as [Hc _].
      apply Z.eqb_eq in Hc. by subst v.
    + case_decide.
      * by eapply IH.
      * eapply IH; [|done|done]. apply Forall_app. split; [done|].
        apply Forall_fmap, Forall_forall. intros nb Hnb. exists nb.
        apply reach_hop with v; [done|]. by apply neighbors_spec.
Qed.

Lemma tidy_mono visited visited' p :
  visited ⊆ visited' → tidy channels amount t visited p → tidy channels amount t visited' p.
Proof.
  intros Hsub (q & x & Hp & Hnd & Hvis & Hval). exists q, x.
  repeat split; [done|done| |done]. intros y Hy. apply Hsub. by apply Hvis.
Qed.

Lemma bfs_NoDup fuel visited queue r :
  Forall (tidy channels amount t visited) queue →
  bfs channels t amount fuel visited queue = Some r → NoDup r.
Proof.
  revert visited queue. induction fuel as [|fuel IH]; intros visited queue Hq Hr.
  - destruct queue; cbn in Hr; [|done]. injection Hr as <-. constructor.
  - destruct queue as [|path queue]; cbn in Hr.
    { injection Hr as <-. constructor. }
    apply Forall_cons in Hq as [(q & x & -> & Hnd & Hvis & Hval) Hq].
    rewrite last_snoc in Hr.
    destruct ((x =? t) && isPathValid channels amount (q ++ [x])) eqn:Hc.
    + injection Hr as <-. apply andb_true_iff in Hc as [Hx Hv].
      apply Z.eqb_eq in Hx. subst x.
      apply NoDup_app. split; [done|]. split; [|apply NoDup_singleton].
      intros y Hy Hy'. apply list_elem_of_singleton in Hy'. subst y.
      apply isPathValid_prefix in Hv. rewrite (Hval Hy) in Hv. done.
    + case_decide as Hin.
      * by eapply IH.
      * eapply IH; [|done]. apply Forall_app. split.
        -- eapply Forall_impl; [done|]. intros p. apply tidy_mono.
           intros y Hy. apply elem_of_union. by right.
        -- apply Forall_fmap, Forall_forall. intros nb _.
           exists (q ++ [x]), nb. split; [done|]. split; [|split].
           ++ apply NoDup_app. split; [done|]. split; [|apply NoDup_singleton].
              intros y Hy Hy'. apply list_elem_of_singleton in Hy'. subst y. auto.
           ++ intros y Hy. apply elem_of_union.
              apply elem_of_app in Hy as [Hy|Hy]; [right; auto|left].
              apply list_elem_of_singleton in Hy. by apply elem_of_singleton.
           ++ intros Ht.
              destruct (isPathValid channels amount (q ++ [x])) eqn:Hv; [|done].
              apply elem_of_app in Ht as [Ht|Ht].
              ** apply isPathValid_prefix in Hv. rewrite (Hval Ht) in Hv. done.
              ** apply list_elem_of_singleton in Ht. subst x.
                 by rewrite Z.eqb_refl in Hc.
Qed.
End Search.

(** ** Breadth-first layers, on a network without parallel channels *)
Section Layers.
Context (channels : list channel) (s t amount : Z).
Hypothesis Hsimple : no_parallel channels.

Lemma NoDup_fmap_elem_inj {A B : Type} (f : A → B) (l : list A) x y :
  NoDup (f <$> l) → x ∈ l → y ∈ l → f x = f y → x = y.
Proof.
  induction l as [|a l IH]; cbn; intros Hnd Hx Hy Hf; [by inversion Hx|].
  apply NoDup_cons in Hnd as [Ha Hnd].
  apply elem_of_cons in Hx as [->|Hx]; apply elem_of_cons in Hy as [->|Hy]; auto.
  - exfalso. apply Ha. rewrite Hf. by apply list_elem_of_fmap_2.
  - exfalso. apply Ha. rewrite <- Hf. by apply list_elem_of_fmap_2.
Qed.

Lemma connects_pair c u v :
  connects c u v → unordered_pair c = (Z.min u v, Z.max u v).
Proof.
  unfold connects, unordered_pair. intros [[<- <-]|[<- <-]]; [done|].
  by rewrite Z.min_comm, Z.max_comm.
Qed.

(** The channel [find] meets first is the only one between the two nodes. *)
Lemma hop_ok_eligible u v : eligible channels amount u v → hop_ok channels amount u v = true.
Proof.
  intros (c & Hin & Hc & Hcap). unfold hop_ok.
  destruct (List.find _ channels) as [c'|] eqn:Hfind.
  - apply find_some in Hfind as [Hin' Hj]. apply joins_spec in Hj.
    assert (c' = c) as ->; [|by apply Z.leb_le].
    apply (NoDup_fmap_elem_inj unordered_pair channels); [done|by apply list_elem_of_In|done|].
    by rewrite (connects_pair _ _ _ Hj), (connects_pair _ _ _ Hc).
  - apply list_elem_of_In in Hin. apply (find_none _ _ Hfind c) in Hin.
    apply joins_spec in Hc. congruence.
Qed.

Lemma reach_valid p v : reach channels amount s p v → isPathValid channels amount p = true.
Proof.
  rewrite isPathValid_hops. induction 1 as [|p u v Hr IH He]; [done|].
  rewrite hops_ok_snoc, IH, (reach_last _ _ _ _ _ Hr). by apply hop_ok_eligible.
Qed.

Lemma ends_at_cons v a A :
  ends_at v (a :: A) → last a = Some v ∨ ends_at v A.
Proof.
  intros (q & Hq & Hl). apply elem_of_cons in Hq as [->|Hq]; [by left|right; by exists q].
Qed.

Lemma ends_at_app_l v A B : ends_at v A → ends_at v (A ++ B).
Proof. intros (q & Hq & Hl). exists q. split; [|done]. apply elem_of_app. by left. Qed.

Lemma ends_at_app_r v A B : ends_at v B → ends_at v (A ++ B).
Proof. intros (q & Hq & Hl). exists q. split; [|done]. apply elem_of_app. by right. Qed.

Lemma ends_at_app v A B : ends_at v (A ++ B) → ends_at v A ∨ ends_at v B.
Proof.
  intros (q & Hq & Hl). apply elem_of_app in Hq as [Hq|Hq]; [left|right]; by exists q.
Qed.

Lemma layered_start : layered channels amount s t 1 [[s]] [] ∅ .
Proof.
  split; try done.
  - by repeat constructor.
  - repeat constructor. exists s. constructor.
  - intros p v Hr Hlen. apply reach_nonempty in Hr. lia.
  - intros p v Hr Hlen. right. exists [s]. split; [by apply list_elem_of_singleton|].
    destruct Hr as [|p u v Hr He]; [done|].
    apply reach_nonempty in Hr. rewrite length_app in Hlen. cbn in Hlen. lia.
Qed.

(** When the paths of [L] nodes are used up, the next layer begins. *)
Lemma layered_shift L B visited :
  layered channels amount s t L [] B visited →
  layered channels amount s t (S L) B [] visited.
Proof.
  intros [Hpos HA HB Hg Ht Hbelow Hlevel Hclosed].
  assert (∀ p v, reach channels amount s p v → length p = L → v ∈ visited) as Hlevel'.
  { intros p v Hr Hlen. destruct (Hlevel p v Hr Hlen) as [?|(q & Hq & _)]; [done|].
    by inversion Hq. }
  split; try done.
  - lia.
  - by rewrite app_nil_r.
  - intros p v Hr Hlen. destruct (decide (length p = L)); [eauto|]. apply (Hbelow p); [done|lia].
  - intros p v Hr Hlen. destruct Hr as [|p u v Hr He]; [cbn in Hlen; lia|].
    rewrite length_app in Hlen. cbn in Hlen.
    apply (Hclosed u v); [|done]. apply (Hlevel' p); [done|lia].
  - intros u v Hu He. rewrite app_nil_r. by apply (Hclosed u v).
Qed.

(** With the queue empty, every node within reach has been visited. *)
Lemma layered_empty L visited :
  layered channels amount s t L [] [] visited → ∀ p, ¬ reach channels amount s p t.
Proof.
  intros [Hpos HA HB Hg Ht Hbelow Hlevel Hclosed] p Hr. apply Ht. clear Ht.
  induction Hr as [|p u v Hr IH He].
  - destruct (decide (L = 1%nat)) as [->|].
    + destruct (Hlevel [s] s) as [?|(q & Hq & _)]; [constructor|done|done|by inversion Hq].
    + apply (Hbelow [s]); [constructor|cbn; lia].
  - destruct (Hclosed u v IH He) as [?|(q & Hq & _)]; [done|by inversion Hq].
Qed.

(** Dropping a path whose last node was already expanded. *)
Lemma layered_drop L a A B visited x :
  layered channels amount s t L (a :: A) B visited →
  last a = Some x → x ∈ visited →
  layered channels amount s t L A B visited.
Proof.
  intros [Hpos HA HB Hg Ht Hbelow Hlevel Hclosed] Hx Hin.
  apply Forall_cons in HA as [_ HA]. apply Forall_cons in Hg as [_ Hg].
  split; try done.
  - intros p v Hr Hlen. destruct (Hlevel p v Hr Hlen) as [?|He]; [by left|].
    apply ends_at_cons in He as [He|He]; [left; congruence|by right].
  - intros u v Hu He. destruct (Hclosed u v Hu He) as [?|Hq]; [by left|].
    apply (ends_at_cons v a (A ++ B)) in Hq as [Hq|Hq]; [left; congruence|by right].
Qed.

(** Expanding a node for the first time. *)
Lemma layered_expand L a A B visited x :
  layered channels amount s t L (a :: A) B visited →
  last a = Some x → x ≠ t → x ∉ visited →
  layered channels amount s t L A
    (B ++ ((fun neighbor => a ++ [neighbor]) <$> neighbors channels amount x))
    ({[x]} ∪ visited).
Proof.
  intros [Hpos HA HB Hg Ht Hbelow Hlevel Hclosed] Hx Hxt Hfresh.
  apply Forall_cons in HA as [Ha HA]. apply Forall_cons in Hg as [(x' & Hax) Hg].
  assert (x' = x) as -> by (apply reach_last in Hax; congruence).
  assert (∀ v, eligible channels amount x v →
               ends_at v ((fun neighbor => a ++ [neighbor]) <$> neighbors channels amount x))
    as Hnew.
  { intros v He. exists (a ++ [v]). split; [|apply last_snoc].
    apply list_elem_of_fmap. exists v. split; [done|]. by apply neighbors_spec. }
  split; try done.
  - apply Forall_app. split; [done|]. apply Forall_fmap, Forall_forall. intros nb _.
    cbn. rewrite length_app. cbn. lia.
  - unfold grown. apply Forall_app in Hg as [HgA HgB].
    rewrite !Forall_app. repeat split; [done|done|].
    apply Forall_fmap, Forall_forall. intros nb Hnb. exists nb.
    apply reach_hop with x; [done|]. by apply neighbors_spec.
  - rewrite elem_of_union, elem_of_singleton. intros [?|?]; [congruence|done].
  - intros p v Hr Hlen. apply elem_of_union. right. by apply (Hbelow p).
  - intros p v Hr Hlen. rewrite elem_of_union, elem_of_singleton.
    destruct (Hlevel p v Hr Hlen) as [?|He]; [by left; right|].
    apply ends_at_cons in He as [He|He]; [left; left; congruence|by right].
  - intros u v Hu He. rewrite elem_of_union, elem_of_singleton.
    apply elem_of_union in Hu as [Hu|Hu].
    + apply elem_of_singleton in Hu. subst u. right.
      rewrite app_assoc. apply ends_at_app_r. by apply Hnew.
    + destruct (Hclosed u v Hu He) as [?|Hq]; [by left; right|].
      apply (ends_at_cons v a (A ++ B)) in Hq as [Hq|Hq]; [left; left; congruence|].
      right. rewrite app_assoc. by apply ends_at_app_l.
Qed.

(** A path of [L] nodes that ends at [t] is a shortest one. *)
Lemma layered_shortest L a A B visited p :
  layered channels amount s t L (a :: A) B visited →
  reach channels amount s p t → (length a ≤ length p)%nat.
Proof.
  intros [Hpos HA HB Hg Ht Hbelow Hlevel Hclosed] Hr.
  apply Forall_cons in HA as [Ha _].
  destruct (decide (length p < L)%nat) as [Hlt|]; [|lia].
  destruct Ht. by apply (Hbelow p).
Qed.

Lemma bfs_layered fuel queue visited r :
  (∃ L A B, queue = A ++ B ∧ layered channels amount s t L A B visited) →
  bfs channels t amount fuel visited queue = Some r →
  (r = [] → ∀ p, ¬ reach channels amount s p t) ∧
  (r ≠ [] → ∀ p, reach channels amount s p t → (length r ≤ length p)%nat).
Proof.
  revert queue visited.
  induction fuel as [|fuel IH]; intros queue visited (L0 & A0 & B0 & -> & Hlay0) Hr.
  all: assert (∃ L A B, A0 ++ B0 = A ++ B ∧ layered channels amount s t L A B visited
                        ∧ (A = [] → B = [])) as (L & A & B & Heq & Hlay & Hnil).
  1,3: destruct A0 as [|a0 A0];
       [ exists (S L0), B0, []; rewrite app_nil_r; split; [done|];
         split; [by apply layered_shift|done]
       | exists L0, (a0 :: A0), B0; split; [done|]; split; [done|intros; discriminate] ].
  all: rewrite Heq in Hr; clear Heq Hlay0; destruct A as [|a A].
  1,3: rewrite (Hnil eq_refl) in *; cbn in Hr; injection Hr as <-;
       split; [intros _; by eapply layered_empty|done].
  - done.
  - cbn [app bfs] in Hr.
    pose proof (lay_grown _ _ _ _ _ _ _ _ Hlay) as Hg.
    apply Forall_cons in Hg as [(x & Hax) _].
    pose proof (reach_last _ _ _ _ _ Hax) as Hx. rewrite Hx in Hr.
    rewrite (reach_valid _ _ Hax), andb_true_r in Hr.
    destruct (x =? t) eqn:Hxt.
    + injection Hr as <-. split.
      * intros ->. by apply reach_nonempty in Hax.
      * intros _ p Hp. by eapply layered_shortest.
    + apply Z.eqb_neq in Hxt. case_decide as Hin.
      * eapply IH; [|done]. exists L, A, B. split; [done|]. by eapply layered_drop.
      * eapply IH; [|done]. eexists L, A, _. split; [|by eapply layered_expand].
        by rewrite app_assoc.
Qed.
End Layers.

(** ** The router's contract *)

Lemma grown_start channels amount s : grown channels amount s [[s]].
Proof. apply Forall_cons. split; [|constructor]. exists s. constructor. Qed.

Lemma tidy_start channels amount s t : Forall (tidy channels amount t ∅) [[s]].
Proof.
  apply Forall_cons. split; [|constructor].
  exists [], s. split; [done|]. split; [constructor|].
  split; [intros ? H|intros H]; by inversion H.
Qed.

Lemma findPath_reach channels s t amount path :
  findPathWithCapacity channels s t amount = Some path → path ≠ [] →
  reach channels amount s path t.
Proof. intros Hr Hne. eapply bfs_sound; [apply grown_start|done|done]. Qed.

Lemma findPath_layered channels s t amount path :
  no_parallel channels →
  findPathWithCapacity channels s t amount = Some path →
  (path = [] → ∀ p, ¬ reach channels amount s p t) ∧
  (path ≠ [] → ∀ p, reach channels amount s p t → (length path ≤ length p)%nat).
Proof.
  intros Hsimple Hr. eapply bfs_layered; [done| |done].
  exists 1%nat, [[s]], []. split; [done|]. by apply layered_start.
Qed.

Lemma eligible_in_range channels numNodes amount u v :
  endpoints_ok channels numNodes → eligible channels amount u v →
  in_range numNodes u ∧ in_range numNodes v.
Proof.
  intros Hok (c & Hin & Hc & _).
  apply (proj1 (Forall_forall _ _) Hok) in Hin as (Hs & He & _).
  destruct Hc as [[<- <-]|[<- <-]]; done.
Qed.

(** Why the data-model invariant is assumed below: between two nodes
    [find] looks at the first stored channel only, so a second, larger
    channel between the same nodes is filtered in but checked out. *)
Lemma findPath_parallel_channels :
  findPathWithCapacity [Channel.mk 0 1 1; Channel.mk 0 1 10] 0 1 5 = Some [] ∧
  eligible [Channel.mk 0 1 1; Channel.mk 0 1 10] 5 0 1.
Proof.
  split; [vm_compute; reflexivity|].
  exists (Channel.mk 0 1 10). split; [repeat constructor|]. split; [by left|]. cbn. lia.
Qed.

(** C1. On a network with at most one channel per unordered pair of nodes,
    [findPathWithCapacity] returns, and its result is not-found exactly when
    no path of channels with [capacity >= amount] joins source and target:
    not-found means there is no such path, and a path, when one exists, is
    found. The amount need not be positive for this. *)
Theorem findPath_not_found_iff channels s t amount :
  no_parallel channels →
  ∃ path, findPathWithCapacity channels s t amount = Some path ∧
          (not_found path ↔ ¬ ∃ p, eligible_path channels amount s t p).
Proof.
  intros Hsimple.
  destruct (findPathWithCapacity_total amount channels s t) as [path Hr].
  exists path. split; [done|]. unfold not_found. split.
  - intros Hnil (p & Hp). apply path_reach in Hp.
    by apply (proj1 (findPath_layered _ _ _ _ _ Hsimple Hr) Hnil p).
  - intros Hnone. destruct path as [|x path]; [done|]. destruct Hnone.
    exists (x :: path). apply reach_path. by apply findPath_reach.
Qed.

Lemma findPath_not_found_iff_witness :
  ∃ path, findPathWithCapacity line_net 0 2 20000000 = Some path ∧
          (not_found path ↔ ¬ ∃ p, eligible_path line_net 20000000 0 2 p).
Proof.
  apply (findPath_not_found_iff line_net 0 2 20000000).
  unfold no_parallel. apply (bool_decide_unpack _). vm_compute. exact I.
Defined.

(** C2. On a network with at most one channel per unordered pair of nodes, a
    path returned by [findPathWithCapacity] is itself a path from source to
    target whose every channel has [capacity >= amount], and it has no more
    nodes, hence no more hops, than any such path: it is one of minimum hop
    count. *)
Theorem findPath_shortest channels s t amount path :
  no_parallel channels →
  findPathWithCapacity channels s t amount = Some path → ¬ not_found path →
  eligible_path channels amount s t path ∧
  ∀ p, eligible_path channels amount s t p → (length path ≤ length p)%nat.
Proof.
  intros Hsimple Hr Hne. split.
  - apply reach_path. by apply findPath_reach.
  - intros p Hp. apply path_reach in Hp.
    by apply (proj2 (findPath_layered _ _ _ _ _ Hsimple Hr) Hne p).
Qed.

Lemma findPath_shortest_witness :
  eligible_path triangle_net 5000000 0 2 [0; 2] ∧
  ∀ p, eligible_path triangle_net 5000000 0 2 p → (length [0; 2] ≤ length p)%nat.
Proof.
  apply (findPath_shortest triangle_net 0 2 5000000 [0; 2]).
  - unfold no_parallel. apply (bool_decide_unpack _). vm_compute. exact I.
  - vm_compute. reflexivity.
  - discriminate.
Defined.

(** C3. A path returned by [findPathWithCapacity] starts at the source, ends
    at the target, and every two consecutive nodes of it are the ends of a
    stored channel whose capacity is at least the amount. *)
Theorem findPath_path_ok channels s t amount path :
  findPathWithCapacity channels s t amount = Some path → ¬ not_found path →
  head path = Some s ∧ last path = Some t ∧
  ∀ (i : nat) (u v : Z), path !! i = Some u → path !! S i = Some v →
    ∃ c, c ∈ channels ∧ connects c u v ∧ amount ≤ capacity c.
Proof. intros Hr Hne. apply reach_path. by apply findPath_reach. Qed.

Lemma findPath_path_ok_witness :
  head [0; 1; 2] = Some 0 ∧ last [0; 1; 2] = Some 2 ∧
  ∀ (i : nat) (u v : Z), [0; 1; 2] !! i = Some u → [0; 1; 2] !! S i = Some v →
    ∃ c, c ∈ line_net ∧ connects c u v ∧ 5000000 ≤ capacity c.
Proof.
  apply (findPath_path_ok line_net 0 2 5000000 [0; 1; 2]).
  - vm_compute. reflexivity.
  - discriminate.
Defined.

(** C4. Whatever the channel list, source, target and amount, the node
    sequence returned by [findPathWithCapacity] has no repeated node. *)
Theorem findPath_no_repeated_node channels s t amount path :
  findPathWithCapacity channels s t amount = Some path → NoDup path.
Proof. intros Hr. eapply bfs_NoDup; [apply tidy_start|done]. Qed.

Lemma findPath_no_repeated_node_witness : NoDup [0; 1; 2].
Proof.
  apply (findPath_no_repeated_node line_net 0 2 5000000 [0; 1; 2]).
  vm_compute. reflexivity.
Defined.

(** C5, as the code behaves. The router validates nothing: with every
    channel between valid nodes, a source or target outside [0, numNodes)
    that differs from the other end gives the not-found result, the same
    value as a routing failure. *)
Theorem findPath_out_of_range channels numNodes s t amount :
  endpoints_ok channels numNodes →
  ¬ in_range numNodes s ∨ ¬ in_range numNodes t → s ≠ t →
  ∃ path, findPathWithCapacity channels s t amount = Some path ∧ not_found path.
Proof.
  intros Hok Hout Hst.
  destruct (findPathWithCapacity_total amount channels s t) as [path Hr].
  exists path. split; [done|]. unfold not_found.
  destruct path as [|x path]; [done|]. exfalso.
  assert (reach channels amount s (x :: path) t) as Hreach by by apply findPath_reach.
  apply reach_endpoints in Hreach as [(y & Hy) (u & Hu)]; [|done].
  apply (eligible_in_range _ numNodes) in Hy as [Hs _]; [|done].
  apply (eligible_in_range _ numNodes) in Hu as [_ Ht]; [|done].
  tauto.
Qed.

Lemma findPath_out_of_range_witness :
  ∃ path, findPathWithCapacity line_net 7 2 5000000 = Some path ∧ not_found path.
Proof.
  apply (findPath_out_of_range line_net 3 7 2 5000000).
  - unfold endpoints_ok, line_net, in_range. repeat constructor; cbn; lia.
  - left. unfold in_range. lia.
  - lia.
Defined.

(** C5, as stated, fails: node 7 is out of range for the three-node line
    network, and the call returns the not-found value; with target 7 as well
    it returns a path. No distinct error is reported. *)
Lemma findPath_out_of_range_is_not_found :
  ¬ in_range 3 7 ∧
  findPathWithCapacity line_net 7 2 5000000 = Some [] ∧ not_found [] ∧
  findPathWithCapacity line_net 7 7 5000000 = Some [7].
Proof.
  split; [unfold in_range; lia|].
  split; [vm_compute; reflexivity|]. split; [reflexivity|]. vm_compute. reflexivity.
Qed.

(** The loop always returns: [2 * channels.length + 1] iterations are
    enough for any channel list, source, target and amount. *)
Theorem findPath_terminates channels s t amount :
  ∃ path, findPathWithCapacity channels s t amount = Some path.
Proof. apply findPathWithCapacity_total. Qed.

(** C9. With source equal to target the loop stops in its first iteration
    and returns the single-node path, for every channel list and amount. *)
Theorem findPath_same_node channels s amount :
  findPathWithCapacity channels s s amount = Some [s].
Proof.
  unfold findPathWithCapacity. cbn [bfs last]. by rewrite Z.eqb_refl.
Qed.

(** ** The formatter's contract *)
Section FormatFacts.
Context (Number_toString : float → string).

Lemma SFcompare_swap x y : SFcompare y x = option_map CompOpp (SFcompare x y).
Proof.
  destruct x as [sx|sx| |sx mx ex], y as [sy|sy| |sy my ey]; cbn;
    try reflexivity; try (by destruct sx); try (by destruct sy);
    try (by destruct sx, sy).
  f_equal. rewrite (Z.compare_antisym ex ey).
  destruct sx, sy; try reflexivity; destruct (ex ?= ey); cbn; try reflexivity.
  - f_equal. symmetry. apply (Pos.compare_cont_antisym mx my Eq).
  - symmetry. apply (Pos.compare_cont_antisym mx my Eq).
Qed.

Lemma float_ltb_leb x y : (x <? y)%float = true → (x <=? y)%float = true.
Proof.
  rewrite ltb_spec, leb_spec. unfold SFltb, SFleb.
  by destruct (SFcompare (Prim2SF x) (Prim2SF y)) as [[]|].
Qed.

Lemma float_ltb_not_leb x y : (x <? y)%float = true → (y <=? x)%float = false.
Proof.
  rewrite ltb_spec, leb_spec. unfold SFltb, SFleb. rewrite (SFcompare_swap (Prim2SF x)).
  by destruct (SFcompare (Prim2SF x) (Prim2SF y)) as [[]|].
Qed.

(** C8. Above 100,000,000 sats [formatCapacity] prints the amount in BTC
    (divided by 10^8, two decimals, suffix [" BTC"]); below it prints
    millions of sats (divided by 10^6, two decimals, suffix ["m sats"]).
    250000000 gives ["2.50 BTC"] and 15000000 gives ["15.00m sats"]. *)
Theorem formatCapacity_units :
  (∀ sats, (100000000 <? sats)%float = true →
     formatCapacity Number_toString sats
     = (toFixed Number_toString (sats / 100000000)%float 2 ++ " BTC")%string) ∧
  (∀ sats, (sats <? 100000000)%float = true →
     formatCapacity Number_toString sats
     = (toFixed Number_toString (sats / 1000000)%float 2 ++ "m sats")%string) ∧
  formatCapacity Number_toString 250000000 = "2.50 BTC"%string ∧
  formatCapacity Number_toString 15000000 = "15.00m sats"%string.
Proof.
  split; [|split; [|split]].
  - intros sats Hgt. unfold formatCapacity. by rewrite (float_ltb_leb _ _ Hgt).
  - intros sats Hlt. unfold formatCapacity. by rewrite (float_ltb_not_leb _ _ Hlt).
  - vm_compute. reflexivity.
  - vm_compute. reflexivity.
Qed.

(** C10. At exactly 100,000,000 sats the test [sats >= 100000000] holds,
    so the BTC branch is taken: the result is ["1.00 BTC"]. *)
Theorem formatCapacity_boundary :
  formatCapacity Number_toString 100000000 = "1.00 BTC"%string.
Proof. vm_compute. reflexivity. Qed.
End FormatFacts.

(** ** Rounding: the product of a draw and a constant *)
Section Rounding.
(** The mantissa [p] has [digits2_pos p] binary digits. *)
Lemma digits2_pos_bounds p :
  2 ^ (Z.pos (digits2_pos p) - 1) <= Z.pos p < 2 ^ Z.pos (digits2_pos p).
Proof.
  induction p as [p IH|p IH|]; cbn [digits2_pos].
  - rewrite Pos2Z.inj_succ.
    replace (Z.succ (Z.pos (digits2_pos p)) - 1) with (Z.succ (Z.pos (digits2_pos p) - 1)) by lia.
    rewrite !Z.pow_succ_r by lia. rewrite (Pos2Z.inj_xI p).
    set (a := 2 ^ (Z.pos (digits2_pos p) - 1)) in *. set (b := 2 ^ Z.pos (digits2_pos p)) in *.
    clearbody a b. lia.
  - rewrite Pos2Z.inj_succ.
    replace (Z.succ (Z.pos (digits2_pos p)) - 1) with (Z.succ (Z.pos (digits2_pos p) - 1)) by lia.
    rewrite !Z.pow_succ_r by lia. rewrite (Pos2Z.inj_xO p).
    set (a := 2 ^ (Z.pos (digits2_pos p) - 1)) in *. set (b := 2 ^ Z.pos (digits2_pos p)) in *.
    clearbody a b. lia.
  - cbn. lia.
Qed.

Lemma digits2_pos_le p k : 0 <= k -> Z.pos p < 2 ^ k -> Z.pos (digits2_pos p) <= k.
Proof.
  intros Hk Hp. destruct (digits2_pos_bounds p) as [Hlo _].
  destruct (Z.le_gt_cases (Z.pos (digits2_pos p)) k) as [|Hgt]; [assumption|].
  assert (2 ^ k <= 2 ^ (Z.pos (digits2_pos p) - 1)) by (apply Z.pow_le_mono_r; lia).
  lia.
Qed.

Lemma iter_pos_nat {A} (f : A -> A) p x :
  SpecFloat.iter_pos f p x = Nat.iter (Pos.to_nat p) f x.
Proof.
  revert x. induction p as [p IH|p IH|]; intros x; cbn [SpecFloat.iter_pos].
  - rewrite !IH, Pos2Nat.inj_xI. 
    replace (S (2 * Pos.to_nat p))%nat with (Pos.to_nat p + S (Pos.to_nat p))%nat by lia.
    rewrite Nat.iter_add. f_equal. symmetry. apply Nat.iter_succ_r.
  - rewrite !IH, Pos2Nat.inj_xO.
    replace (2 * Pos.to_nat p)%nat with (Pos.to_nat p + Pos.to_nat p)%nat by lia.
    now rewrite Nat.iter_add.
  - reflexivity.
Qed.

Lemma shr_1_spec m r s :
  0 <= m ->
  shr_m (shr_1 (Build_shr_record m r s)) = m / 2 /\
  shr_r (shr_1 (Build_shr_record m r s)) = Z.odd m.
Proof.
  intros Hm. destruct m as [|[p|p|]|p]; try lia; cbn [shr_1 shr_m shr_r].
  - split; reflexivity.
  - split; [|reflexivity]. rewrite (Pos2Z.inj_xI p). apply (Z.div_unique _ 2 _ 1); lia.
  - split; [|reflexivity]. rewrite (Pos2Z.inj_xO p). apply (Z.div_unique _ 2 _ 0); lia.
  - split; reflexivity.
Qed.

(** After [k] one-bit shifts of [M]: the quotient, and a round bit set only
    if the part shifted out is at least half of [2^k]. *)
Lemma shr_iter M k :
  0 <= M ->
  let mrs := Nat.iter k shr_1 (Build_shr_record M false false) in
  shr_m mrs = M / 2 ^ Z.of_nat k /\
  (shr_r mrs = true -> (1 <= k)%nat /\ 2 ^ (Z.of_nat k - 1) <= M mod 2 ^ Z.of_nat k).
Proof.
  intros HM. induction k as [|k IH]; cbn zeta in *.
  - cbn. split; [now rewrite Z.div_1_r|discriminate].
  - rewrite !Nat.iter_succ. destruct (Nat.iter k shr_1 _) as [q r s]. cbn [shr_m shr_r] in IH.
    destruct IH as [Hq Hr].
    assert (0 <= q) as Hq0. { rewrite Hq. apply Z.div_pos; [lia|]. apply Z.pow_pos_nonneg; lia. }
    destruct (shr_1_spec q r s Hq0) as [-> ->].
    rewrite Nat2Z.inj_succ, Z.pow_succ_r, (Z.mul_comm 2) by lia.
    assert (0 < 2 ^ Z.of_nat k) as Hpow by (apply Z.pow_pos_nonneg; lia).
    split.
    + rewrite Hq, Z.div_div by lia. reflexivity.
    + intros Hodd. split; [lia|].
      replace (Z.succ (Z.of_nat k) - 1) with (Z.of_nat k) by lia.
      rewrite Z.rem_mul_r by lia. rewrite <- Hq.
      pose proof (Z.mod_pos_bound M (2 ^ Z.of_nat k) Hpow).
      rewrite Zmod_odd, Hodd. nia.
Qed.

(** [shr] by [n] places: the quotient by [2^n], and a round bit set only if
    the part shifted out is at least half of [2^n]. *)
Lemma shr_spec M e n :
  0 <= M ->
  let res := shr (Build_shr_record M false false) e n in
  snd res = e + Z.max n 0 /\ shr_m (fst res) = M / 2 ^ Z.max n 0 /\
  (shr_r (fst res) = true -> 1 <= n /\ 2 ^ (n - 1) <= M mod 2 ^ n).
Proof.
  intros HM. destruct n as [|p|p]; cbn [shr fst snd shr_m shr_r].
  - rewrite Z.div_1_r. repeat split; try lia; discriminate.
  - rewrite iter_pos_nat. destruct (shr_iter M (Pos.to_nat p) HM) as [Hq Hr].
    rewrite positive_nat_Z in Hq, Hr. rewrite Z.max_l by lia.
    repeat split; [exact Hq|apply Hr in H; lia|apply Hr in H; apply H].
  - rewrite Z.div_1_r. repeat split; try lia; discriminate.
Qed.

Lemma round_nearest_even_bound mrs :
  let q1 := round_nearest_even (shr_m mrs) (loc_of_shr_record mrs) in
  shr_m mrs <= q1 /\ q1 <= shr_m mrs + (if shr_r mrs then 1 else 0).
Proof.
  destruct mrs as [q [] []]; cbn; try destruct (Z.even q); lia.
Qed.

Lemma Zdigits2_le M k : 0 <= M -> 0 <= k -> M < 2 ^ k -> Zdigits2 M <= k.
Proof.
  intros HM Hk Hlt. destruct M as [|p|p]; cbn [Zdigits2]; [lia| |lia].
  now apply digits2_pos_le.
Qed.

Lemma half_ulp_bound M E :
  0 <= M < 2 ^ 106 -> -1127 <= E -> 0 <= half_ulp M E <= 2 ^ 52.
Proof.
  intros [HM0 HM] HE. unfold half_ulp, fexp, emin, prec, emax.
  pose proof (Zdigits2_le M 106 HM0 ltac:(lia) HM) as Hd.
  cbn zeta. destruct (Z.ltb_spec 0 (Z.max (Zdigits2 M + E - 53) (3 - 1024 - 53) - E)) as [Hn|Hn].
  - split; [apply Z.pow_nonneg; lia|]. apply Z.pow_le_mono_r; lia.
  - split; [lia|]. apply Z.pow_nonneg; lia.
Qed.

(** Rounding to nearest raises the exact value [M·2^E] by at most half a
    unit of the last place kept, and never to an infinity here. *)
Lemma binary_round_aux_bound M E :
  0 < M < 2 ^ 106 -> -1127 <= E <= 0 ->
  match binary_round_aux prec emax false M E loc_Exact with
  | S754_zero _ => True
  | S754_finite s m e => s = false /\ E <= e /\ Z.pos m * 2 ^ (e - E) <= M + half_ulp M E
  | _ => False
  end.
Proof.
  intros [HM0 HM] HE. unfold binary_round_aux, shr_fexp, half_ulp.
  cbn [shr_record_of_loc].
  pose proof (Zdigits2_le M 106 ltac:(lia) ltac:(lia) HM) as Hd.
  set (n1 := fexp prec emax (Zdigits2 M + E) - E).
  assert (n1 <= 53) as Hn1 by (unfold n1, fexp, emin, prec, emax; lia).
  pose proof (shr_spec M E n1 ltac:(lia)) as H1. cbn zeta in H1.
  destruct (shr {| shr_m := M; shr_r := false; shr_s := false |} E n1) as [mrs' e'].
  cbn [fst snd] in H1. destruct H1 as (He' & Hq & Hr).
  pose proof (round_nearest_even_bound mrs') as Hrne. cbn zeta in Hrne.
  set (q1 := round_nearest_even (shr_m mrs') (loc_of_shr_record mrs')) in *.
  assert (0 < 2 ^ Z.max n1 0) as Hp1 by (apply Z.pow_pos_nonneg; lia).
  assert (0 <= shr_m mrs' <= M) as Hq0.
  { rewrite Hq. split; [apply Z.div_pos; lia|]. apply Z.div_le_upper_bound; nia. }
  assert (q1 * 2 ^ Z.max n1 0 <= M + (if 0 <? n1 then 2 ^ (n1 - 1) else 0)) as Hv1.
  { pose proof (Z.mul_div_le M _ Hp1) as Hfl. rewrite <- Hq in Hfl.
    destruct (shr_r mrs').
    - destruct (Hr eq_refl) as [Hn Hh]. rewrite Z.max_l in * by lia.
      destruct (Z.ltb_spec 0 n1); [|lia].
      pose proof (Z.div_mod M (2 ^ n1) ltac:(lia)) as Hdm. rewrite <- Hq in Hdm.
      assert (2 ^ n1 = 2 * 2 ^ (n1 - 1)) as Hpow.
      { rewrite <- Z.pow_succ_r by lia. f_equal. lia. }
      set (P := 2 ^ n1) in *. set (h := 2 ^ (n1 - 1)) in *.
      set (rm := M mod P) in *. clearbody P h rm. nia.
    - assert (0 <= (if 0 <? n1 then 2 ^ (n1 - 1) else 0)).
      { destruct (0 <? n1); [apply Z.pow_nonneg|]; lia. }
      set (P := 2 ^ Z.max n1 0) in *. clearbody P. nia. }
  assert (0 <= q1 < 2 ^ 107) as Hq1.
  { split; [lia|]. destruct (shr_r mrs'); change (2 ^ 107) with (2 * 2 ^ 106); lia. }
  set (n2 := fexp prec emax (Zdigits2 q1 + e') - e').
  pose proof (Zdigits2_le q1 107 ltac:(lia) ltac:(lia) ltac:(lia)) as Hd1.
  pose proof (shr_spec q1 e' n2 ltac:(lia)) as H2. cbn zeta in H2.
  destruct (shr {| shr_m := q1; shr_r := false; shr_s := false |} e' n2) as [mrs'' e''].
  cbn [fst snd] in H2. destruct H2 as (He'' & Hq2 & _).
  assert (0 < 2 ^ Z.max n2 0) as Hp2 by (apply Z.pow_pos_nonneg; lia).
  assert (0 <= shr_m mrs'') as Hm2 by (rewrite Hq2; apply Z.div_pos; lia).
  destruct (shr_m mrs'') as [|m|m] eqn:Em; [exact I| |lia].
  assert (e'' <= 971) as Hfin by (unfold n2, n1, fexp, emin, prec, emax in *; lia).
  change (emax - prec) with 971.
  destruct (Z.leb_spec e'' 971) as [_|]; [|lia].
  split; [reflexivity|]. split; [lia|].
  replace (e'' - E) with (Z.max n2 0 + Z.max n1 0) by lia.
  rewrite Z.pow_add_r by lia.
  pose proof (Z.mul_div_le q1 _ Hp2) as Hfl2. rewrite <- Hq2 in Hfl2.
  set (P1 := 2 ^ Z.max n1 0) in *. set (P2 := 2 ^ Z.max n2 0) in *.
  set (H := if 0 <? n1 then 2 ^ (n1 - 1) else 0) in *.
  clearbody P1 P2 H. nia.
Qed.

(** A double's mantissa has at most 53 digits, and exactly 53 unless the
    exponent is the least one. *)
Lemma bounded_spec m e :
  bounded prec emax m e = true ->
  -1074 <= e <= 971 /\ Z.pos m < 2 ^ 53 /\ (-1074 < e -> 2 ^ 52 <= Z.pos m).
Proof.
  unfold bounded, canonical_mantissa, fexp, emin, prec, emax.
  rewrite andb_true_iff, Z.eqb_eq, Z.leb_le. intros [Hc He].
  destruct (digits2_pos_bounds m) as [Hlo Hhi].
  assert (Z.pos (digits2_pos m) <= 53) as Hd by lia.
  assert (2 ^ Z.pos (digits2_pos m) <= 2 ^ 53) by (apply Z.pow_le_mono_r; lia).
  repeat split; try lia.
  intros Hn. replace (Z.pos (digits2_pos m)) with 53 in Hlo by lia. exact Hlo.
Qed.

Lemma compare_cont_lt m n : Pos.compare_cont Eq m n = Lt -> Z.pos m < Z.pos n.
Proof. intros H. apply Pos2Z.pos_lt_pos. exact H. Qed.

(** A double in [0, 1) is a zero or [m·2^e] with [m < 2^53], [e <= -53]. *)
Lemma unit_interval r :
  (0 <=? r)%float = true -> (r <? 1)%float = true ->
  match Prim2SF r with
  | S754_zero _ => True
  | S754_finite s m e => s = false /\ -1074 <= e <= -53 /\ Z.pos m < 2 ^ 53
  | _ => False
  end.
Proof.
  rewrite leb_spec, ltb_spec. pose proof (Prim2SF_valid r) as Hv.
  change (Prim2SF 0) with (S754_zero false).
  change (Prim2SF 1) with (S754_finite false 4503599627370496 (-52)).
  destruct (Prim2SF r) as [s|[]|  |[] m e];
    cbn [SFleb SFltb SFcompare valid_binary] in *; try discriminate; try exact (fun _ _ => I).
  intros _ Hlt. apply bounded_spec in Hv. destruct Hv as (He & Hm & Hn).
  split; [reflexivity|]. split; [|exact Hm].
  destruct (Z.compare_spec e (-52)) as [->|Hlt'|Hgt]; try discriminate; [|lia].
  exfalso. specialize (Hn ltac:(lia)).
  destruct (Pos.compare_cont Eq m 4503599627370496) eqn:Hc; try discriminate.
  apply compare_cont_lt in Hc. change (2 ^ 52) with 4503599627370496 in Hn. lia.
Qed.

(** The rounded product of a double [r] in [0, 1) and a double constant
    [c = mc·2^ec] with [2^52 < mc] is a zero, or a positive double whose
    exact value is below that of [c]. *)
Lemma mul_below r c mc ec :
  Prim2SF c = S754_finite false mc ec -> 2 ^ 52 < Z.pos mc -> -53 <= ec <= 0 ->
  (0 <=? r)%float = true -> (r <? 1)%float = true ->
  match Prim2SF (r * c) with
  | S754_zero _ => True
  | S754_finite s m e =>
    s = false /\
    exists E, E <= e /\ E <= ec /\ Z.pos m * 2 ^ (e - E) < Z.pos mc * 2 ^ (ec - E)
  | _ => False
  end.
Proof.
  intros Hc Hmc Hec H0 H1. pose proof (unit_interval r H0 H1) as Hr.
  pose proof (Prim2SF_valid c) as Hvc. rewrite Hc in Hvc. cbn [valid_binary] in Hvc.
  apply bounded_spec in Hvc. destruct Hvc as (_ & Hmc' & _).
  rewrite mul_spec, Hc. destruct (Prim2SF r) as [s| | |s m e]; try contradiction.
  - exact I.
  - destruct Hr as (-> & He & Hm). unfold SF64mul. cbn [SFmul xorb].
    assert (0 < Z.pos (m * mc) < 2 ^ 106) as HM.
    { split; [lia|]. rewrite Pos2Z.inj_mul. change (2 ^ 106) with (2 ^ 53 * 2 ^ 53).
      set (P := 2 ^ 53) in *. clearbody P. nia. }
    pose proof (binary_round_aux_bound (Z.pos (m * mc)) (e + ec) HM ltac:(lia)) as Hb.
    pose proof (half_ulp_bound (Z.pos (m * mc)) (e + ec) ltac:(lia) ltac:(lia)) as Hh.
    destruct (binary_round_aux prec emax false (Z.pos (m * mc)) (e + ec) loc_Exact)
      as [s2| | |s2 m2 e2]; try contradiction; [exact I|].
    destruct Hb as (-> & He2 & Hb). split; [reflexivity|].
    exists (e + ec). split; [exact He2|]. split; [lia|].
    replace (ec - (e + ec)) with (- e) by lia.
    assert (2 ^ 53 <= 2 ^ (- e)) as Hp by (apply Z.pow_le_mono_r; lia).
    rewrite Pos2Z.inj_mul in Hb.
    set (H := half_ulp _ _) in *. set (V := Z.pos m2 * 2 ^ (e2 - (e + ec))) in *.
    set (P := 2 ^ (- e)) in *. set (A := 2 ^ 53) in *. set (B := 2 ^ 52) in *.
    clearbody H V P A B. nia.
Qed.

(** Two positive doubles compare as their exact values do. *)
Lemma SFcompare_value_lt m1 e1 m2 e2 E :
  bounded prec emax m1 e1 = true -> bounded prec emax m2 e2 = true ->
  E <= e1 -> E <= e2 ->
  Z.pos m1 * 2 ^ (e1 - E) < Z.pos m2 * 2 ^ (e2 - E) ->
  SFcompare (S754_finite false m1 e1) (S754_finite false m2 e2) = Some Lt.
Proof.
  intros Hb1 Hb2 H1 H2 Hlt. apply bounded_spec in Hb1, Hb2.
  destruct Hb1 as (He1 & _ & Hn1). destruct Hb2 as (He2 & Hm2 & _).
  cbn [SFcompare]. destruct (Z.compare_spec e1 e2) as [->|Hc|Hc]; [|reflexivity|exfalso].
  - assert (0 < 2 ^ (e2 - E)) as Hp by (apply Z.pow_pos_nonneg; lia).
    assert (Z.pos m1 < Z.pos m2) as Hm by (set (P := 2 ^ (e2 - E)) in *; clearbody P; nia).
    change (Pos.compare_cont Eq m1 m2 = Lt) in Hm. now rewrite Hm.
  - specialize (Hn1 ltac:(lia)).
    assert (0 < 2 ^ (e2 - E)) as Hp by (apply Z.pow_pos_nonneg; lia).
    assert (2 * 2 ^ (e2 - E) <= 2 ^ (e1 - E)) as Hpp.
    { rewrite <- Z.pow_succ_r by lia. apply Z.pow_le_mono_r; lia. }
    change (2 ^ 53) with (2 * 2 ^ 52) in Hm2.
    set (P := 2 ^ (e2 - E)) in *. set (Q := 2 ^ (e1 - E)) in *. set (B := 2 ^ 52) in *.
    clearbody P Q B. nia.
Qed.

Lemma scaled_below r c mc ec :
  Prim2SF c = S754_finite false mc ec -> 2 ^ 52 < Z.pos mc -> -53 <= ec <= 0 ->
  (0 <=? r)%float = true -> (r <? 1)%float = true ->
  (0 <=? r * c)%float = true /\ (r * c <? c)%float = true.
Proof.
  intros Hc Hmc Hec H0 H1. pose proof (mul_below r c mc ec Hc Hmc Hec H0 H1) as Hb.
  pose proof (Prim2SF_valid (r * c)) as Hv. pose proof (Prim2SF_valid c) as Hvc.
  rewrite leb_spec, ltb_spec, Hc in *. change (Prim2SF 0) with (S754_zero false).
  unfold SFleb, SFltb.
  destruct (Prim2SF (r * c)) as [s| | |s m e]; try contradiction.
  - split; reflexivity.
  - destruct Hb as (-> & E & HE1 & HE2 & Hlt). cbn [valid_binary] in Hv, Hvc.
    rewrite (SFcompare_value_lt m e mc ec E Hv Hvc HE1 HE2 Hlt). split; reflexivity.
Qed.

(** If [c] is the integer [N], the floor of the rounded product is an
    integer of [0, N). *)
Lemma floor_below r c mc ec N :
  Prim2SF c = S754_finite false mc ec -> 2 ^ 52 < Z.pos mc -> -53 <= ec <= 0 ->
  Z.pos mc = N * 2 ^ (- ec) ->
  (0 <=? r)%float = true -> (r <? 1)%float = true ->
  exists i, Math_floor (r * c) = Some i /\ 0 <= i < N.
Proof.
  intros Hc Hmc Hec HN H0 H1. pose proof (mul_below r c mc ec Hc Hmc Hec H0 H1) as Hb.
  unfold Math_floor.
  assert (0 < N) as HN0.
  { assert (0 < 2 ^ (- ec)) by (apply Z.pow_pos_nonneg; lia). nia. }
  destruct (Prim2SF (r * c)) as [s| | |s m e]; try contradiction.
  - exists 0. split; [reflexivity|lia].
  - destruct Hb as (-> & E & HE1 & HE2 & Hlt). eexists. split; [reflexivity|].
    rewrite HN in Hlt. rewrite <- Z.mul_assoc, <- Z.pow_add_r in Hlt by lia.
    replace (- ec + (ec - E)) with (- E) in Hlt by lia.
    destruct (Z.leb_spec 0 e) as [He|He].
    + replace (e - E) with (e + - E) in Hlt by lia. rewrite Z.pow_add_r in Hlt by lia.
      assert (0 < 2 ^ e) by (apply Z.pow_pos_nonneg; lia).
      assert (0 < 2 ^ (- E)) by (apply Z.pow_pos_nonneg; lia).
      set (P := 2 ^ e) in *. set (Q := 2 ^ (- E)) in *. clearbody P Q. nia.
    + replace (- E) with ((e - E) + - e) in Hlt by lia. rewrite Z.pow_add_r in Hlt by lia.
      assert (0 < 2 ^ (e - E)) by (apply Z.pow_pos_nonneg; lia).
      assert (0 < 2 ^ (- e)) by (apply Z.pow_pos_nonneg; lia).
      split; [apply Z.div_pos; lia|]. apply Z.div_lt_upper_bound; [lia|].
      set (P := 2 ^ (e - E)) in *. set (Q := 2 ^ (- e)) in *. clearbody P Q. nia.
Qed.

(** A draw in [0, 1) is below every probability of at least 1, and not below
    any probability of at most 0. *)
Lemma float_below_one r p :
  (0 <=? r)%float = true -> (r <? 1)%float = true -> (1 <=? p)%float = true ->
  (r <? p)%float = true.
Proof.
  intros H0 H1. pose proof (unit_interval r H0 H1) as Hr.
  rewrite leb_spec, ltb_spec. change (Prim2SF 1) with (S754_finite false 4503599627370496 (-52)).
  unfold SFleb, SFltb.
  destruct (Prim2SF r) as [s| | |s m e]; try contradiction;
    destruct (Prim2SF p) as [sp|[]| |[] mp ep]; cbn [SFcompare]; try discriminate;
    try reflexivity.
  destruct Hr as (-> & He & _).
  destruct (Z.compare_spec (-52) ep) as [<-|Hlt|Hgt]; try discriminate.
  - intros _. destruct (Z.compare_spec e (-52)); [lia|reflexivity|lia].
  - intros _. destruct (Z.compare_spec e ep); [lia|reflexivity|lia].
Qed.

Lemma float_nonneg_not_below r p :
  (0 <=? r)%float = true -> (p <=? 0)%float = true -> (r <? p)%float = false.
Proof.
  rewrite !leb_spec, ltb_spec. change (Prim2SF 0) with (S754_zero false).
  unfold SFleb, SFltb.
  destruct (Prim2SF r) as [s|[]| |[] m e]; cbn [SFcompare]; try discriminate;
    destruct (Prim2SF p) as [sp|[]| |[] mp ep]; cbn [SFcompare]; try discriminate;
    reflexivity.
Qed.
End Rounding.

(** ** The generator's contract *)
Section GeneratorFacts.
Context (random : nat → float).
(** [Math.random()] returns a double in [0, 1). *)
Hypothesis Hrange : ∀ k, (0 <=? random k)%float = true ∧ (random k <? 1)%float = true.

(** Loop rule: [P i] holds before iteration [i], [P (max lo hi)] at exit. *)
Lemma for_range_ind (P : Z → page → Prop) lo hi (body : Z → M unit) s :
  P lo s →
  (∀ i s', lo ≤ i < hi → P i s' → P (i + 1) (snd (body i s'))) →
  P (Z.max lo hi) (snd (for_range lo hi body s)).
Proof.
  intros H0 Hstep. unfold for_range. cbn [snd].
  remember (Z.to_nat (hi - lo)) as k eqn:Hk. revert lo s H0 Hstep Hk.
  induction k as [|k IH]; intros lo s H0 Hstep Hk.
  - rewrite seqZ_nil by lia. cbn. by replace (Z.max lo hi) with lo by lia.
  - rewrite seqZ_cons by lia. cbn [fold_left].
    replace (Z.max lo hi) with (Z.max (Z.succ lo) hi) by lia.
    replace (Z.pred (hi - lo)) with (hi - Z.succ lo) by lia.
    apply IH; [|intros i s' Hi; apply Hstep; lia|lia].
    replace (Z.succ lo) with (lo + 1) by lia. apply Hstep; [lia|done].
Qed.

(** [capacities.length] is the double 12. *)
Lemma capacities_length : Number_of_Z (Z.of_nat (length capacities)) = 12%float.
Proof. vm_compute. reflexivity. Qed.

(** The index is a position of the table: the product of the draw and 12,
    rounded to a double, stays below 12. *)
Lemma generateCapacity_index k :
  ∃ index, Math_floor (random k * Number_of_Z (Z.of_nat (length capacities))) = Some index
           ∧ 0 ≤ index < 12.
Proof.
  rewrite capacities_length. destruct (Hrange k) as [Hlo Hhi].
  apply (floor_below (random k) 12 6755399441055744 (-49) 12);
    [reflexivity|reflexivity|lia|reflexivity|done|done].
Qed.

Lemma generateCapacity_spec s :
  ∃ cap, generateCapacity random s = (cap, mkPage (nodes s) (channels s) (S (draws s)))
         ∧ cap ∈ capacities.
Proof.
  unfold generateCapacity, bind, Math_random, ret. eexists. split; [reflexivity|].
  destruct (generateCapacity_index (draws s)) as (index & -> & Hidx).
  destruct (Z.ltb_spec index 0) as [|_]; [lia|].
  destruct (lookup_lt_is_Some_2 capacities (Z.to_nat index)) as [cap Hcap].
  { change (length capacities) with 12%nat. lia. }
  rewrite Hcap. cbn. by eapply list_elem_of_lookup_2.
Qed.

(** One pass of the inner loop body: a draw below the probability appends
    the channel [(i, j)] with a capacity from the table, and nothing else
    changes the two arrays. *)
Lemma channel_step i j p s :
  let s' := snd ((let* r := Math_random random in
                  if (r <? p)%float
                  then let* capacity := generateCapacity random in
                       push_channel (Channel.mk i j capacity)
                  else ret tt) s) in
  nodes s' = nodes s ∧
  (((random (draws s) <? p)%float = true ∧
    ∃ cap, cap ∈ capacities ∧ channels s' = channels s ++ [Channel.mk i j cap])
   ∨ ((random (draws s) <? p)%float = false ∧ channels s' = channels s)).
Proof.
  cbv beta iota zeta delta [bind Math_random ret push_channel].
  destruct (random (draws s) <? p)%float eqn:Hlt.
  - destruct (generateCapacity_spec (mkPage (nodes s) (channels s) (S (draws s))))
      as (cap & Hgen & Hcap).
    rewrite Hgen. cbn. split; [done|]. left. split; [done|]. by exists cap.
  - cbn. split; [done|]. by right.
Qed.

(** Rule for the two nested channel loops. *)
Lemma channel_loops_ind (I : Z → Z → page → Prop) n p s :
  (∀ i j s', 0 ≤ i → i < j < n → I i j s' →
     I i (j + 1) (snd ((let* r := Math_random random in
                        if (r <? p)%float
                        then let* capacity := generateCapacity random in
                             push_channel (Channel.mk i j capacity)
                        else ret tt) s'))) →
  (∀ i s', 0 ≤ i < n → I i (Z.max (i + 1) n) s' → I (i + 1) (i + 2) s') →
  I 0 1 s →
  I (Z.max 0 n) (Z.max 0 n + 1)
    (snd (for_range 0 n (fun i =>
            for_range (i + 1) n (fun j =>
              let* r := Math_random random in
              if (r <? p)%float
              then let* capacity := generateCapacity random in
                   push_channel (Channel.mk i j capacity)
              else ret tt)) s)).
Proof.
  intros Hstep Hrow H0.
  apply (for_range_ind (fun i s' => I i (i + 1) s')); [done|].
  intros i s' Hi HI. replace (i + 1 + 1) with (i + 2) by lia. apply Hrow; [done|].
  apply (for_range_ind (fun j s'' => I i j s'')); [done|].
  intros j s'' Hj. apply Hstep; lia.
Qed.

Lemma generateNetwork_loops n p :
  generateNetwork random n p =
  snd (for_range 0 n (fun i =>
         for_range (i + 1) n (fun j =>
           let* r := Math_random random in
           if (r <? p)%float
           then let* capacity := generateCapacity random in
                push_channel (Channel.mk i j capacity)
           else ret tt))
       (snd (for_range 0 n (fun i =>
               let* x := Math_random random in
               let* y := Math_random random in
               push_node (mkNode (label i) (x * 760) (y * 560)))
             (mkPage [] [] 0)))).
Proof. reflexivity. Qed.

(** The first loop creates node [i] in iteration [i] and no channel. *)
Lemma nodes_created n :
  let s := snd (for_range 0 n (fun i =>
                  let* x := Math_random random in
                  let* y := Math_random random in
                  push_node (mkNode (label i) (x * 760) (y * 560)))
                (mkPage [] [] 0)) in
  length (nodes s) = Z.to_nat n ∧
  (∀ i, 0 ≤ i < n → ∃ nd, nodes s !! Z.to_nat i = Some nd ∧ textContent nd = label i) ∧
  channels s = [].
Proof.
  cbv zeta.
  match goal with |- context [for_range 0 n ?b ?s0] =>
    pose proof (for_range_ind (fun i s =>
      0 ≤ i ∧ length (nodes s) = Z.to_nat i ∧
      (∀ k, 0 ≤ k < i → ∃ nd, nodes s !! Z.to_nat k = Some nd ∧ textContent nd = label k) ∧
      channels s = []) 0 n b s0) as Hloop
  end.
  cbv beta in Hloop. destruct Hloop as (_ & Hlen & Hidx & Hch).
  - split; [done|]. split; [done|]. split; [intros k Hk; lia|done].
  - intros i s Hi (_ & Hlen & Hidx & Hch).
    cbv beta iota zeta delta [bind Math_random push_node]. cbn [snd nodes channels].
    split; [lia|]. split; [|split; [|done]].
    + rewrite length_app. cbn [length]. lia.
    + intros k Hk. destruct (decide (k = i)) as [->|Hne].
      * eexists. rewrite lookup_app_r by lia.
        rewrite Hlen, Nat.sub_diag. split; reflexivity.
      * destruct (Hidx k) as (nd & Hnd & Hlab); [lia|].
        exists nd. split; [|done]. by apply lookup_app_l_Some.
  - split; [lia|]. split; [|done]. intros i Hi. apply Hidx. lia.
Qed.

Lemma generateNetwork_nodes n p :
  nodes (generateNetwork random n p)
  = nodes (snd (for_range 0 n (fun i =>
                  let* x := Math_random random in
                  let* y := Math_random random in
                  push_node (mkNode (label i) (x * 760) (y * 560)))
                (mkPage [] [] 0))).
Proof.
  rewrite generateNetwork_loops.
  match goal with |- nodes (snd (_ ?s1)) = _ =>
    apply (channel_loops_ind (fun _ _ s => nodes s = nodes s1) n p s1)
  end; [|done|done].
  intros i j s' _ _ Hs'. destruct (channel_step i j p s') as [Hn _]. congruence.
Qed.

(** With probability 0 no draw is below it. *)
Lemma generateNetwork_no_channels n : channels (generateNetwork random n 0) = [].
Proof.
  rewrite generateNetwork_loops.
  apply (channel_loops_ind (fun _ _ s => channels s = []) n 0%float); [|done|apply nodes_created].
  intros i j s' _ _ Hs'. destruct (channel_step i j 0%float s') as [_ [[Hlt _]|[_ Hsame]]].
  - destruct (Hrange (draws s')) as [Hlo _]. apply float_ltb_not_leb in Hlt. congruence.
  - congruence.
Qed.

(** With probability 1 every draw is below it: row [i] adds [n - 1 - i]
    channels. *)
Lemma generateNetwork_all_channels n :
  0 ≤ n → 2 * Z.of_nat (length (channels (generateNetwork random n 1))) = n * (n - 1).
Proof.
  intros Hn. rewrite generateNetwork_loops.
  match goal with |- context [for_range 0 n ?b ?s1] =>
    pose proof (channel_loops_ind (fun i j s =>
      2 * Z.of_nat (length (channels s)) = i * (2 * n - i - 1) + 2 * (j - i - 1)) n 1%float s1)
      as Hloop
  end.
  cbv beta in Hloop. replace (Z.max 0 n) with n in Hloop by lia.
  rewrite Hloop; [lia| | |].
  - intros i j s' Hi Hj Hs'.
    destruct (channel_step i j 1%float s') as [_ [[_ (cap & _ & Hpush)]|[Hge _]]].
    + rewrite Hpush, length_app. cbn [length]. lia.
    + destruct (Hrange (draws s')) as [_ Hhi]. congruence.
  - intros i s' Hi Hs'. replace (Z.max (i + 1) n) with n in Hs' by lia. lia.
  - destruct (nodes_created n) as (_ & _ & ->). cbn. lia.
Qed.

(** C6. For a positive node count [n], [generateNetwork] creates exactly
    [n] nodes, node [i] being the one built in iteration [i] (indices
    [0..n-1]); with channel probability 0 it creates no channel, and with
    probability 1 exactly [n * (n - 1) / 2] channels, which is 10 channels
    for 5 nodes. *)
Theorem generateNetwork_counts n :
  0 < n →
  (∀ p, length (nodes (generateNetwork random n p)) = Z.to_nat n ∧
        ∀ i, 0 ≤ i < n →
          ∃ nd, nodes (generateNetwork random n p) !! Z.to_nat i = Some nd
                ∧ textContent nd = label i) ∧
  channels (generateNetwork random n 0) = [] ∧
  Z.of_nat (length (channels (generateNetwork random n 1))) = n * (n - 1) / 2 ∧
  length (channels (generateNetwork random 5 1)) = 10%nat.
Proof.
  intros Hn. split; [|split; [|split]].
  - intros p. rewrite generateNetwork_nodes.
    destruct (nodes_created n) as (Hlen & Hidx & _). by split.
  - apply generateNetwork_no_channels.
  - rewrite <- generateNetwork_all_channels by lia.
    by rewrite Z.mul_comm, Z.div_mul.
  - pose proof (generateNetwork_all_channels 5). lia.
Qed.

(** Channels are appended in increasing order of [(start, end)], each with
    [start < end < numNodes] and a capacity from the table. *)
Lemma generateNetwork_invariant n p :
  endpoints_ok (channels (generateNetwork random n p)) n ∧
  no_parallel (channels (generateNetwork random n p)) ∧
  Forall (λ c, capacity c ∈ capacities) (channels (generateNetwork random n p)).
Proof.
  rewrite generateNetwork_loops.
  match goal with |- context [for_range 0 n ?b ?s1] =>
    pose proof (channel_loops_ind (fun i j s =>
      Forall (λ c, 0 ≤ start c ∧ start c < end_ c ∧ end_ c < n ∧ capacity c ∈ capacities ∧
                   (start c < i ∨ (start c = i ∧ end_ c < j))) (channels s) ∧
      NoDup (unordered_pair <$> channels s)) n p s1) as Hloop
  end.
  cbv beta in Hloop. destruct Hloop as [Hall Hnd].
  - intros i j s' Hi Hj [Hall Hnd].
    destruct (channel_step i j p s') as [_ [[_ (cap & Hcap & ->)]|[_ ->]]].
    + split.
      * apply Forall_app. split.
        -- eapply Forall_impl; [done|]. cbn. intros c (? & ? & ? & ? & ?).
           repeat split; try done. lia.
        -- apply Forall_singleton. cbn. repeat split; try done; lia.
      * rewrite fmap_app. apply NoDup_app. split; [done|]. split; [|apply NoDup_singleton].
        intros pr Hpr Hnew. apply list_elem_of_singleton in Hnew.
        apply list_elem_of_fmap in Hpr as (c & Hc & Hin).
        apply (proj1 (Forall_forall _ _) Hall) in Hin as (? & ? & ? & ? & Hord).
        subst pr. unfold unordered_pair in Hnew. cbn in Hnew.
        injection Hnew as Hmin Hmax. lia.
    + split; [|done]. eapply Forall_impl; [done|]. cbn. intros c (? & ? & ? & ? & ?).
      repeat split; try done. lia.
  - intros i s' Hi [Hall Hnd]. split; [|done].
    eapply Forall_impl; [done|]. cbn. intros c (? & ? & ? & ? & ?).
    repeat split; try done. lia.
  - destruct (nodes_created n) as (_ & _ & ->). split; constructor.
  - split; [|split; [done|]].
    + eapply Forall_impl; [done|]. cbn. unfold in_range. intros c (? & ? & ? & ? & ?). lia.
    + eapply Forall_impl; [done|]. cbn. by intros c (? & ? & ? & ? & ?).
Qed.

(** C7. In every generated network each channel joins two distinct node
    indices of [0, numNodes), no unordered pair of nodes carries two
    channels, and each capacity is one of the twelve values of the table. *)
Theorem generateNetwork_well_formed n p :
  endpoints_ok (channels (generateNetwork random n p)) n ∧
  no_parallel (channels (generateNetwork random n p)) ∧
  Forall (λ c, capacity c ∈ [5000000; 10000000; 20000000; 30000000; 40000000; 50000000;
                             60000000; 70000000; 80000000; 90000000; 100000000; 200000000])
         (channels (generateNetwork random n p)).
Proof. apply generateNetwork_invariant. Qed.

(** The router on every network the generator builds: it returns; its
    result is not-found exactly when no path of channels with
    [capacity >= amount] joins source and target; and a path it returns is
    such a path, of minimum hop count among them. *)
Lemma generated_findPath n p s t amount :
  ∃ path,
    findPathWithCapacity (channels (generateNetwork random n p)) s t amount = Some path ∧
    (not_found path ↔
       ¬ ∃ q, eligible_path (channels (generateNetwork random n p)) amount s t q) ∧
    (¬ not_found path →
       eligible_path (channels (generateNetwork random n p)) amount s t path ∧
       ∀ q, eligible_path (channels (generateNetwork random n p)) amount s t q →
            (length path ≤ length q)%nat).
Proof.
  destruct (generateNetwork_invariant n p) as (_ & Hsimple & _).
  destruct (findPathWithCapacity_total amount (channels (generateNetwork random n p)) s t)
    as [path Hr].
  destruct (findPath_layered _ _ _ _ _ Hsimple Hr) as [Hnone Hmin].
  exists path. split; [done|]. split; [split|].
  - intros Hnil (q & Hq). apply path_reach in Hq. by apply (Hnone Hnil q).
  - intros Hno. destruct path as [|x path]; [done|]. destruct Hno.
    exists (x :: path). apply reach_path. by apply findPath_reach.
  - intros Hne. split.
    + apply reach_path. by apply findPath_reach.
    + intros q Hq. apply path_reach in Hq. by apply Hmin.
Qed.
End GeneratorFacts.

Lemma draw_half_in_range :
  ∀ k : nat, (0 <=? draw_half k)%float = true ∧ (draw_half k <? 1)%float = true.
Proof. intros k. split; reflexivity. Defined.

Lemma draw_five_sixths_in_range :
  ∀ k : nat, (0 <=? draw_five_sixths k)%float = true ∧ (draw_five_sixths k <? 1)%float = true.
Proof. intros k. split; reflexivity. Defined.

Lemma draw_mixed_in_range :
  ∀ k : nat, (0 <=? draw_mixed k)%float = true ∧ (draw_mixed k <? 1)%float = true.
Proof. intros k. unfold draw_mixed. destruct (Nat.even k); split; reflexivity. Defined.

(** The draw next below 5/6: its exact product with 12 is below 10, the
    double product is 10, and the capacity read is [capacities[10]]. *)
Lemma generateCapacity_rounds :
  Math_floor (draw_five_sixths 0 * 12) = Some 10 ∧
  7505999378950826 * 12 < 10 * 2 ^ 53 ∧
  fst (generateCapacity draw_five_sixths (mkPage [] [] 0)) = 100000000.
Proof. split; [|split]; vm_compute; reflexivity. Qed.

Lemma generateNetwork_counts_witness :
  (∀ p, length (nodes (generateNetwork draw_half 5 p)) = 5%nat ∧
        ∀ i, 0 ≤ i < 5 →
          ∃ nd, nodes (generateNetwork draw_half 5 p) !! Z.to_nat i = Some nd
                ∧ textContent nd = label i) ∧
  channels (generateNetwork draw_half 5 0) = [] ∧
  Z.of_nat (length (channels (generateNetwork draw_half 5 1))) = 10 ∧
  length (channels (generateNetwork draw_half 5 1)) = 10%nat.
Proof.
  apply (generateNetwork_counts draw_half).
  - apply draw_half_in_range.
  - lia.
Defined.

Lemma generateNetwork_well_formed_witness :
  endpoints_ok (channels (generateNetwork draw_mixed 4 0.5)) 4 ∧
  no_parallel (channels (generateNetwork draw_mixed 4 0.5)) ∧
  Forall (λ c, capacity c ∈ [5000000; 10000000; 20000000; 30000000; 40000000; 50000000;
                             60000000; 70000000; 80000000; 90000000; 100000000; 200000000])
         (channels (generateNetwork draw_mixed 4 0.5)).
Proof.
  apply (generateNetwork_well_formed draw_mixed). apply draw_mixed_in_range.
Defined.

Lemma generated_findPath_witness :
  ∃ path,
    findPathWithCapacity (channels (generateNetwork draw_half 3 1)) 0 2 5000000 = Some path ∧
    (not_found path ↔
       ¬ ∃ q, eligible_path (channels (generateNetwork draw_half 3 1)) 5000000 0 2 q) ∧
    (¬ not_found path →
       eligible_path (channels (generateNetwork draw_half 3 1)) 5000000 0 2 path ∧
       ∀ q, eligible_path (channels (generateNetwork draw_half 3 1)) 5000000 0 2 q →
            (length path ≤ length q)%nat).
Proof.
  apply (generated_findPath draw_half). apply draw_half_in_range.
Defined.

(** ** Further properties of the router *)
Section RouterMore.
Context (channels : list channel).

Lemma eligible_mono amount amount' u v :
  amount' ≤ amount → eligible channels amount u v → eligible channels amount' u v.
Proof. intros Hle (c & Hin & Hc & Hcap). exists c. repeat split; [done|done|lia]. Qed.

Lemma reach_mono amount amount' s p v :
  amount' ≤ amount → reach channels amount s p v → reach channels amount' s p v.
Proof.
  intros Hle. induction 1 as [|p u v _ IH He]; [constructor|].
  apply reach_hop with u; [done|]. by apply eligible_mono with amount.
Qed.

Lemma eligible_sym amount u v : eligible channels amount u v → eligible channels amount v u.
Proof.
  intros (c & Hin & Hc & Hcap). exists c. repeat split; [done| |done].
  unfold connects in *. tauto.
Qed.

Lemma eligible_path_reverse amount s t p :
  eligible_path channels amount s t p → eligible_path channels amount t s (reverse p).
Proof.
  intros (Hh & Hl & Hhops). split; [by rewrite head_reverse|]. split; [by rewrite last_reverse|].
  intros i u v Hu Hv.
  assert (S i < length p)%nat as Hi.
  { apply lookup_lt_Some in Hv. by rewrite length_reverse in Hv. }
  rewrite reverse_lookup in Hu by lia. rewrite reverse_lookup in Hv by lia.
  apply eligible_sym. apply (Hhops (length p - S (S i))%nat); [done|].
  by replace (S (length p - S (S i))) with (length p - S i)%nat by lia.
Qed.

Lemma reach_in_range numNodes amount s p v :
  endpoints_ok channels numNodes → in_range numNodes s →
  reach channels amount s p v → Forall (in_range numNodes) p.
Proof.
  intros Hok Hs. induction 1 as [|p u v _ IH He]; [by apply Forall_singleton|].
  apply Forall_app. split; [done|]. apply Forall_singleton.
  by apply (eligible_in_range _ _ _ _ _ Hok He).
Qed.

(** The advice of the no-route alert, "try a smaller amount", is sound: on
    a network with at most one channel per pair of nodes, if an amount can
    be routed then every smaller amount can, along a path no longer. *)
Theorem findPath_smaller_amount s t amount amount' path :
  no_parallel channels → amount' ≤ amount →
  findPathWithCapacity channels s t amount = Some path → ¬ not_found path →
  ∃ path', findPathWithCapacity channels s t amount' = Some path' ∧
           ¬ not_found path' ∧ (length path' ≤ length path)%nat.
Proof.
  intros Hsimple Hle Hr Hne.
  destruct (findPathWithCapacity_total amount' channels s t) as [path' Hr'].
  exists path'. split; [done|].
  assert (reach channels amount' s path t) as Hreach.
  { apply reach_mono with amount; [done|]. by apply findPath_reach. }
  destruct (findPath_layered _ _ _ _ _ Hsimple Hr') as [Hnone Hmin].
  assert (path' ≠ []) as Hne' by (intros Hnil; by apply (Hnone Hnil path)).
  split; [done|]. by apply Hmin.
Qed.

(** No channel is large enough: an amount above every capacity is never
    routed between two different nodes, whatever the channel list. *)
Theorem findPath_amount_too_large s t amount :
  Forall (λ c, capacity c < amount) channels → s ≠ t →
  findPathWithCapacity channels s t amount = Some [].
Proof.
  intros Hsmall Hst.
  destruct (findPathWithCapacity_total amount channels s t) as [path Hr].
  rewrite Hr. f_equal. destruct path as [|x path]; [done|]. exfalso.
  assert (reach channels amount s (x :: path) t) as Hreach by by apply findPath_reach.
  apply reach_endpoints in Hreach as [(y & c & Hin & _ & Hcap) _]; [|done].
  apply (proj1 (Forall_forall _ _) Hsmall) in Hin. lia.
Qed.

(** Channels are undirected: on a network with at most one channel per pair
    of nodes, a payment can be routed from [s] to [t] exactly when it can be
    routed from [t] to [s], and both routes have the same number of hops. *)
Theorem findPath_symmetric s t amount path back :
  no_parallel channels →
  findPathWithCapacity channels s t amount = Some path →
  findPathWithCapacity channels t s amount = Some back →
  (not_found path ↔ not_found back) ∧ length path = length back.
Proof.
  intros Hsimple Hr Hb. unfold not_found.
  destruct (findPath_layered _ _ _ _ _ Hsimple Hr) as [Hnone Hmin].
  destruct (findPath_layered _ _ _ _ _ Hsimple Hb) as [Hnone' Hmin'].
  assert (∀ a b q, reach channels amount a q b →
                   reach channels amount b (reverse q) a) as Hrev.
  { intros a b q Hq. by apply path_reach, eligible_path_reverse, reach_path. }
  destruct path as [|x path], back as [|y back]; [done| | |].
  - exfalso. apply (Hnone eq_refl (reverse (y :: back))).
    by apply Hrev, findPath_reach.
  - exfalso. apply (Hnone' eq_refl (reverse (x :: path))).
    by apply Hrev, findPath_reach.
  - split; [done|]. apply Nat.le_antisymm.
    + rewrite <- (length_reverse (y :: back)). apply Hmin; [done|].
      by apply Hrev, findPath_reach.
    + rewrite <- (length_reverse (x :: path)). apply Hmin'; [done|].
      by apply Hrev, findPath_reach.
Qed.

(** Two different nodes joined by a channel that carries the amount are
    always routed over one hop, on a network with at most one channel per
    pair of nodes. *)
Theorem findPath_direct_channel s t amount c :
  no_parallel channels → c ∈ channels → connects c s t → amount ≤ capacity c → s ≠ t →
  findPathWithCapacity channels s t amount = Some [s; t].
Proof.
  intros Hsimple Hin Hc Hcap Hst.
  destruct (findPathWithCapacity_total amount channels s t) as [path Hr].
  rewrite Hr. f_equal.
  assert (reach channels amount s [s; t] t) as Hdirect.
  { apply (reach_hop channels amount s [s] s t); [constructor|]. by exists c. }
  destruct (findPath_layered _ _ _ _ _ Hsimple Hr) as [Hnone Hmin].
  assert (path ≠ []) as Hne by (intros Hnil; by apply (Hnone Hnil [s; t])).
  specialize (Hmin Hne _ Hdirect). cbn in Hmin.
  destruct (reach_path _ _ _ _ _ (findPath_reach _ _ _ _ _ Hr Hne)) as (Hh & Hl & _).
  destruct path as [|a [|b [|? ?]]]; cbn in *; try lia; try done.
  - congruence.
  - congruence.
Qed.

(** From a valid source, over channels between valid nodes, every node of
    the returned path is a valid node index, and the path has at most
    [numNodes] nodes. *)
Theorem findPath_within_network numNodes s t amount path :
  endpoints_ok channels numNodes → in_range numNodes s →
  findPathWithCapacity channels s t amount = Some path →
  Forall (in_range numNodes) path ∧ (length path ≤ Z.to_nat numNodes)%nat.
Proof.
  intros Hok Hs Hr.
  assert (Forall (in_range numNodes) path) as Hall.
  { destruct path as [|x path]; [constructor|].
    apply (reach_in_range numNodes amount s _ t); [done|done|]. by apply findPath_reach. }
  split; [done|].
  assert (NoDup path) as Hnd by (eapply bfs_NoDup; [apply tidy_start|done]).
  rewrite <- (length_seqZ 0 numNodes). apply submseteq_length, NoDup_submseteq; [done|].
  intros x Hx. apply (proj1 (Forall_forall _ _) Hall) in Hx. unfold in_range in Hx.
  apply list_elem_of_lookup. exists (Z.to_nat x). rewrite lookup_seqZ. lia.
Qed.
End RouterMore.

(** ** Channel classes *)

(** [getChannelClass] is monotone in the capacity, with the class changing
    exactly at 20,000,000 and at 50,000,000. *)
Theorem getChannelClass_monotone c1 c2 :
  c1 ≤ c2 →
  (class_rank (getChannelClass c1) ≤ class_rank (getChannelClass c2))%nat ∧
  (getChannelClass c1 = small ↔ c1 < 20000000) ∧
  (getChannelClass c1 = large ↔ 50000000 ≤ c1).
Proof.
  intros Hle. unfold getChannelClass.
  destruct (Z.ltb_spec c1 20000000), (Z.ltb_spec c1 50000000),
    (Z.ltb_spec c2 20000000), (Z.ltb_spec c2 50000000); cbn; try lia;
    (split; [lia|split; split; (done || lia)]).
Qed.

Lemma getChannelClass_monotone_witness :
  (class_rank (getChannelClass 10000000) ≤ class_rank (getChannelClass 60000000))%nat ∧
  (getChannelClass 10000000 = small ↔ 10000000 < 20000000) ∧
  (getChannelClass 10000000 = large ↔ 50000000 ≤ 10000000).
Proof. apply (getChannelClass_monotone 10000000 60000000). lia. Defined.

(** ** Further properties of the generator *)
Section GeneratorMore.
Context (random : nat → float).
Hypothesis Hrange : ∀ k, (0 <=? random k)%float = true ∧ (random k <? 1)%float = true.

(** The channel loops keep this: every stored channel runs from a lower to a
    higher valid index and lies before the pair [(i, j)] under way, and the
    list is in strictly increasing storage order. *)
Lemma generateNetwork_order n p :
  let l := channels (generateNetwork random n p) in
  Forall (λ c, 0 ≤ start c ∧ start c < end_ c ∧ end_ c < n) l ∧
  ∀ (a b : nat) ca cb, (a < b)%nat → l !! a = Some ca → l !! b = Some cb → stored_before ca cb.
Proof.
  cbv zeta. rewrite generateNetwork_loops.
  match goal with |- context [for_range 0 n ?body ?s1] =>
    pose proof (channel_loops_ind random (fun i j s =>
      Forall (λ c, 0 ≤ start c ∧ start c < end_ c ∧ end_ c < n ∧
                   (start c < i ∨ (start c = i ∧ end_ c < j))) (channels s) ∧
      ∀ (a b : nat) ca cb, (a < b)%nat → channels s !! a = Some ca →
                           channels s !! b = Some cb → stored_before ca cb) n p s1) as Hloop
  end.
  cbv beta in Hloop. destruct Hloop as [Hall Hsorted].
  - intros i j s' Hi Hj [Hall Hsorted].
    destruct (channel_step random Hrange i j p s') as [_ [[_ (cap & Hcap & ->)]|[_ ->]]].
    + split.
      * apply Forall_app. split.
        -- eapply Forall_impl; [done|]. cbn. intros c (? & ? & ? & ?).
           repeat split; try done. lia.
        -- apply Forall_singleton. cbn. repeat split; try done; lia.
      * intros a b ca cb Hab Ha Hb.
        assert (b < length (channels s') ∨ b = length (channels s'))%nat as [Hlt| ->].
        { apply lookup_lt_Some in Hb. rewrite length_app in Hb. cbn in Hb. lia. }
        -- rewrite lookup_app_l in Ha by lia. rewrite lookup_app_l in Hb by lia. eauto.
        -- rewrite lookup_app_l in Ha by lia.
           rewrite lookup_app_r, Nat.sub_diag in Hb by lia. injection Hb as <-.
           apply list_elem_of_lookup_2 in Ha.
           apply (proj1 (Forall_forall _ _) Hall) in Ha as (_ & _ & _ & Hord).
           unfold stored_before. cbn. lia.
    + split; [|done]. eapply Forall_impl; [done|]. cbn. intros c (? & ? & ? & ?).
      repeat split; try done. lia.
  - intros i s' Hi [Hall Hsorted]. split; [|done].
    eapply Forall_impl; [done|]. cbn. intros c (? & ? & ? & ?).
    repeat split; try done. lia.
  - destruct (nodes_created random n) as (_ & _ & ->). split; [constructor|].
    intros a b ca cb _ Ha. by rewrite lookup_nil in Ha.
  - split; [|done]. eapply Forall_impl; [done|]. cbn. by intros c (? & ? & ? & ?).
Qed.

(** Every channel of a generated network has [start < end], and the
    channels are stored in strictly increasing order of [(start, end)]: the
    order the router's tie-break follows. *)
Theorem generateNetwork_storage_order n p :
  Forall (λ c, start c < end_ c) (channels (generateNetwork random n p)) ∧
  ∀ (a b : nat) ca cb,
    (a < b)%nat →
    channels (generateNetwork random n p) !! a = Some ca →
    channels (generateNetwork random n p) !! b = Some cb →
    stored_before ca cb.
Proof.
  destruct (generateNetwork_order n p) as [Hall Hsorted]. split; [|done].
  eapply Forall_impl; [done|]. cbn. by intros c (_ & ? & _).
Qed.

(** Whatever the probability, at most [n * (n - 1) / 2] channels are made. *)
Theorem generateNetwork_channel_bound n p :
  0 ≤ n → 2 * Z.of_nat (length (channels (generateNetwork random n p))) ≤ n * (n - 1).
Proof.
  intros Hn. rewrite generateNetwork_loops.
  match goal with |- context [for_range 0 n ?body ?s1] =>
    pose proof (channel_loops_ind random (fun i j s =>
      2 * Z.of_nat (length (channels s)) ≤ i * (2 * n - i - 1) + 2 * (j - i - 1)) n p s1)
      as Hloop
  end.
  cbv beta in Hloop. replace (Z.max 0 n) with n in Hloop by lia.
  etrans; [apply Hloop|lia].
  - intros i j s' Hi Hj Hs'.
    destruct (channel_step random Hrange i j p s') as [_ [[_ (cap & _ & ->)]|[_ ->]]].
    + rewrite length_app. cbn [length]. lia.
    + lia.
  - intros i s' Hi Hs'. replace (Z.max (i + 1) n) with n in Hs' by lia. lia.
  - destruct (nodes_created random n) as (_ & _ & ->). cbn. lia.
Qed.

(** A probability of at least 1 gives the complete graph: every pair of
    node indices [i < j] has its channel. A probability of at most 0 gives
    no channel. *)
Theorem generateNetwork_extremes n p :
  ((1 <=? p)%float = true → ∀ i j, 0 ≤ i → i < j → j < n →
     ∃ c, c ∈ channels (generateNetwork random n p) ∧ start c = i ∧ end_ c = j) ∧
  ((p <=? 0)%float = true → channels (generateNetwork random n p) = []).
Proof.
  split; intros Hp.
  - rewrite generateNetwork_loops.
    match goal with |- context [for_range 0 n ?body ?s1] =>
      pose proof (channel_loops_ind random (fun i j s =>
        ∀ a b, 0 ≤ a → a < b → b < n → a < i ∨ (a = i ∧ b < j) →
               ∃ c, c ∈ channels s ∧ start c = a ∧ end_ c = b) n p s1) as Hloop
    end.
    cbv beta in Hloop. intros i j Hi Hij Hj. apply Hloop; try done; [| |lia|lia].
    + intros a b s' Ha Hb Hs' x y Hx Hxy Hy Hbefore.
      destruct (channel_step random Hrange a b p s') as [_ [[_ (cap & _ & ->)]|[Hge _]]].
      * destruct (decide (x = a ∧ y = b)) as [[-> ->]|Hne].
        -- eexists. split; [apply elem_of_app; right; by apply list_elem_of_singleton|done].
        -- destruct (Hs' x y) as (c & Hc & ?); [done|done|done|lia|].
           exists c. split; [|done]. apply elem_of_app. by left.
      * destruct (Hrange (draws s')) as [Hlo Hhi].
        rewrite (float_below_one _ _ Hlo Hhi Hp) in Hge. discriminate.
    + intros a s' Ha Hs' x y Hx Hxy Hy Hbefore. apply Hs'; try done.
      replace (Z.max (a + 1) n) with n by lia. lia.
  - rewrite generateNetwork_loops.
    apply (channel_loops_ind random (fun _ _ s => channels s = []) n p);
      [|done|apply nodes_created].
    intros i j s' _ _ Hs'.
    destruct (channel_step random Hrange i j p s') as [_ [[Hlt _]|[_ Hsame]]]; [|congruence].
    destruct (Hrange (draws s')) as [Hlo _].
    rewrite (float_nonneg_not_below _ _ Hlo Hp) in Hlt. discriminate.
Qed.
End GeneratorMore.

(** ** Node labels and the dropdowns *)

Lemma decimal_nonempty n : decimal n ≠ EmptyString.
Proof.
  unfold decimal. intros Hempty.
  destruct (NilZero.usu_gen (N.to_uint (Z.to_N n))) as [H|H];
    rewrite Hempty in H; discriminate.
Qed.

Lemma decimal_inj a b : 0 ≤ a → 0 ≤ b → decimal a = decimal b → a = b.
Proof.
  unfold decimal. intros Ha Hb Heq.
  assert (∀ m, N.to_uint m ≠ Decimal.Nil) as Hnonnil.
  { intros [|q]; [discriminate|]. apply DecimalPos.Unsigned.to_uint_nonnil. }
  apply (f_equal NilZero.uint_of_string) in Heq.
  rewrite !NilZero.usu in Heq by apply Hnonnil.
  injection Heq as Heq. apply DecimalN.Unsigned.to_uint_inj in Heq. lia.
Qed.

Lemma label_inj i j : 0 ≤ i → 0 ≤ j → label i = label j → i = j.
Proof.
  intros Hi Hj. unfold label. cbn [append].
  pose proof (Z.mod_pos_bound i 26 eq_refl) as Hmi.
  pose proof (Z.mod_pos_bound j 26 eq_refl) as Hmj.
  intros Heq. injection Heq as Hc Hrest.
  assert (i mod 26 = j mod 26) as Hmod.
  { apply (f_equal N_of_ascii) in Hc. rewrite !N_ascii_embedding in Hc by lia. lia. }
  destruct (Z.leb_spec 26 i), (Z.leb_spec 26 j).
  - apply decimal_inj in Hrest; [|by apply Z.div_pos|by apply Z.div_pos].
    rewrite (Z.div_mod i 26), (Z.div_mod j 26) by done. congruence.
  - by apply decimal_nonempty in Hrest.
  - symmetry in Hrest. by apply decimal_nonempty in Hrest.
  - rewrite <- (Z.mod_small i 26), <- (Z.mod_small j 26) by lia. done.
Qed.

(** Distinct node indices get distinct labels: the letter gives the index
    modulo 26 and the number after it the quotient. *)
Theorem label_distinct i j : 0 ≤ i → 0 ≤ j → i ≠ j → label i ≠ label j.
Proof. intros Hi Hj Hne Heq. by apply Hne, label_inj. Qed.

Lemma label_distinct_witness : label 1 ≠ label 27.
Proof. apply (label_distinct 1 27); lia. Defined.

Section Dropdowns.
Context (random : nat → float).
Hypothesis Hrange : ∀ k, (0 <=? random k)%float = true ∧ (random k <? 1)%float = true.

(** After a generation both dropdowns offer the node indices [0 .. n-1],
    each once, in order, under pairwise distinct labels: a selection is
    always a valid node index. *)
Theorem dropdowns_of_generated n p :
  let options := populateNodeDropdowns (nodes (generateNetwork random n p)) in
  fst options = (fun i => mkOption i (label i)) <$> seqZ 0 n ∧
  snd options = fst options ∧
  NoDup (option_text <$> fst options).
Proof.
  cbv zeta. unfold populateNodeDropdowns. cbn [fst snd].
  assert (imap (fun index nd => mkOption (Z.of_nat index) (textContent nd))
            (nodes (generateNetwork random n p))
          = (fun i => mkOption i (label i)) <$> seqZ 0 n) as ->.
  { rewrite (generateNetwork_nodes random Hrange).
    destruct (nodes_created random n) as (Hlen & Hidx & _). cbv zeta in Hlen, Hidx.
    apply list_eq. intros k. rewrite list_lookup_imap, list_lookup_fmap.
    destruct (decide (Z.of_nat k < n)) as [Hk|Hk].
    - rewrite lookup_seqZ_lt by done.
      destruct (Hidx (Z.of_nat k)) as (nd & Hnd & Hlab); [lia|].
      rewrite Nat2Z.id in Hnd. rewrite Hnd. cbn. by rewrite Hlab.
    - rewrite lookup_seqZ_ge by lia. rewrite lookup_ge_None_2 by lia. done. }
  split; [done|]. split; [done|].
  rewrite <- list_fmap_compose. apply NoDup_fmap_2_strong; [|apply NoDup_seqZ].
  intros i j Hi Hj. cbn.
  apply list_elem_of_lookup in Hi as [ki Hi]. apply lookup_seqZ in Hi.
  apply list_elem_of_lookup in Hj as [kj Hj]. apply lookup_seqZ in Hj.
  apply label_inj; lia.
Qed.
End Dropdowns.

Lemma dropdowns_of_generated_witness :
  let options := populateNodeDropdowns (nodes (generateNetwork draw_half 3 1)) in
  fst options = (fun i => mkOption i (label i)) <$> seqZ 0 3 ∧
  snd options = fst options ∧
  NoDup (option_text <$> fst options).
Proof.
  apply (dropdowns_of_generated draw_half). apply draw_half_in_range.
Defined.

(** ** Tooltip and formatting edges *)
Section TooltipFacts.
Context (Number_toString : float → string).

Lemma is_nan_nan x : is_nan x = true → x = nan.
Proof.
  intros Hnan. apply Prim2SF_inj. change (Prim2SF nan) with S754_nan.
  unfold is_nan in Hnan. rewrite FloatAxioms.eqb_spec in Hnan. unfold SFeqb in Hnan.
  destruct (Prim2SF x) as [sx|sx| |sx mx ex]; [done|by destruct sx|done|].
  destruct sx; cbn in Hnan; rewrite Z.compare_refl, (Pos.compare_cont_refl mx Eq) in Hnan;
    discriminate.
Qed.

(** An amount that is not a number (an empty amount field read by
    [parseInt]) fails the test [sats >= 100000000] and is printed in the
    million-sats branch, as ["NaNm sats"]. *)
Theorem formatCapacity_nan sats :
  is_nan sats = true → formatCapacity Number_toString sats = "NaNm sats"%string.
Proof. intros Hnan. rewrite (is_nan_nan _ Hnan). vm_compute. reflexivity. Qed.

Context (random : nat → float).
Hypothesis Hrange : ∀ k, (0 <=? random k)%float = true ∧ (random k <? 1)%float = true.

(** The tooltip of a generated channel shows its capacity exactly, as a
    whole number of millions of sats below 1 BTC and of BTC from there on,
    always with [.00]; the tooltip is made visible. *)
Theorem tooltip_of_generated n p c pageX pageY t :
  c ∈ channels (generateNetwork random n p) →
  tip_text (showTooltip Number_toString pageX pageY (capacity c) t)
  = ("Capacity: "
     ++ (if (capacity c <? 100000000)%Z
         then decimal (capacity c / 1000000)%Z ++ ".00m sats"
         else decimal (capacity c / 100000000)%Z ++ ".00 BTC"))%string
  ∧ tip_opacity (showTooltip Number_toString pageX pageY (capacity c) t) = 1.
Proof.
  intros Hc. split; [|done].
  destruct (generateNetwork_invariant random Hrange n p) as (_ & _ & Hcaps).
  apply (proj1 (Forall_forall _ _) Hcaps) in Hc. unfold showTooltip. cbn [tip_text].
  unfold capacities in Hc.
  repeat (apply elem_of_cons in Hc as [->|Hc]; [vm_compute; reflexivity|]).
  by apply elem_of_nil in Hc.
Qed.
End TooltipFacts.

Lemma formatCapacity_nan_witness :
  formatCapacity (fun _ => EmptyString) nan = "NaNm sats"%string.
Proof. apply (formatCapacity_nan (fun _ => EmptyString) nan). reflexivity. Defined.

Lemma tooltip_of_generated_witness :
  tip_text (showTooltip (fun _ => EmptyString) 3 4 60000000 (mkTooltip EmptyString 0 0 0))
  = ("Capacity: "
     ++ (if (60000000 <? 100000000)%Z
         then decimal (60000000 / 1000000)%Z ++ ".00m sats"
         else decimal (60000000 / 100000000)%Z ++ ".00 BTC"))%string
  ∧ tip_opacity (showTooltip (fun _ => EmptyString) 3 4 60000000 (mkTooltip EmptyString 0 0 0)) = 1.
Proof.
  apply (tooltip_of_generated (fun _ => EmptyString) draw_half draw_half_in_range
           3 1 (Channel.mk 0 1 60000000) 3 4 (mkTooltip EmptyString 0 0 0)).
  vm_compute. apply list_elem_of_here.
Defined.

(** ** Payments: [highlightPath], [clearHighlights], [animateTransaction] *)
Section PaymentFacts.
Context (Number_toString : float → string) (nodes : list node) (channels : list channel).

Lemma find_index_Some {A : Type} (f : A → bool) (l : list A) k0 k :
  find_index f l k0 = Some k →
  (k0 ≤ k)%nat ∧ ∃ x, l !! (k - k0)%nat = Some x ∧ f x = true.
Proof.
  revert k0. induction l as [|x l IH]; intros k0 Hfind; [done|].
  cbn in Hfind. destruct (f x) eqn:Hfx.
  - injection Hfind as <-. split; [lia|]. exists x. by rewrite Nat.sub_diag.
  - apply IH in Hfind as (Hle & y & Hy & Hfy). split; [lia|]. exists y. split; [|done].
    replace (k - k0)%nat with (S (k - S k0)) by lia. done.
Qed.

Lemma find_index_is_Some {A : Type} (f : A → bool) (l : list A) k0 x :
  x ∈ l → f x = true → is_Some (find_index f l k0).
Proof.
  revert k0. induction l as [|y l IH]; intros k0 Hin Hfx; [by inversion Hin|].
  cbn. destruct (f y) eqn:Hfy; [by eexists|].
  apply elem_of_cons in Hin as [->|Hin]; [congruence|]. by apply IH.
Qed.

Lemma node_at_is_Some v :
  is_Some (node_at nodes v) ↔ in_range (Z.of_nat (length nodes)) v.
Proof.
  unfold node_at, in_range. destruct (Z.ltb_spec v 0) as [Hneg|Hpos].
  - split; [by intros [? ?]|lia].
  - rewrite lookup_lt_is_Some. lia.
Qed.

(** On a network with at most one channel per pair, the channel [find]
    meets for a hop is the channel between its two nodes. *)
Lemma find_index_joins u v k :
  no_parallel channels → (∃ c, c ∈ channels ∧ connects c u v) →
  find_index (fun c => joins c u v) channels 0 = Some k ↔
  ∃ c, channels !! k = Some c ∧ connects c u v.
Proof.
  intros Hsimple (c0 & Hin0 & Hc0). split.
  - intros Hfind. apply find_index_Some in Hfind as (_ & c & Hc & Hj).
    rewrite Nat.sub_0_r in Hc. exists c. split; [done|]. by apply joins_spec.
  - intros (c & Hk & Hc).
    destruct (find_index_is_Some (fun c => joins c u v) channels 0%nat c0) as [k' Hk'];
      [done|by apply joins_spec|].
    rewrite Hk'. f_equal.
    apply find_index_Some in Hk' as (_ & c' & Hc' & Hj). rewrite Nat.sub_0_r in Hc'.
    apply joins_spec in Hj.
    apply (NoDup_lookup (unordered_pair <$> channels) k' k (Z.min u v, Z.max u v)); [done| |].
    + by rewrite list_lookup_fmap, Hc', <- (connects_pair _ _ _ Hj).
    + by rewrite list_lookup_fmap, Hk, <- (connects_pair _ _ _ Hc).
Qed.

(** If every node of the path exists, [highlightPath] ends normally, having
    marked the nodes of the part it ran over and, for each of its hops, the
    channel [find] met. *)
Lemma highlight_from_normal path pre l h :
  path = pre ++ l → Forall (λ v, is_Some (node_at nodes v)) l →
  ∃ h', highlight_from nodes channels path (length pre) l h = Normal h' ∧
    (∀ i, i ∈ hl_nodes h' ↔ i ∈ hl_nodes h ∨ ∃ v, v ∈ l ∧ i = Z.to_nat v) ∧
    (∀ k, k ∈ hl_channels h' ↔
          k ∈ hl_channels h ∨
          ∃ j u v, (length pre ≤ j)%nat ∧ path !! j = Some u ∧ path !! S j = Some v ∧
                   find_index (fun c => joins c u v) channels 0 = Some k).
Proof.
  revert pre h. induction l as [|x l IH]; intros pre h Hpath Hall.
  - exists h. split; [done|]. split.
    + intros i. split; [by left|]. intros [?|(v & Hv & _)]; [done|by inversion Hv].
    + intros k. split; [by left|]. intros [?|(j & u & v & Hj & _ & Hv & _)]; [done|].
      apply lookup_lt_Some in Hv. subst path. rewrite app_nil_r in Hv. lia.
  - apply Forall_cons in Hall as [[nd Hnd] Hall].
    assert (path !! length pre = Some x) as Hx.
    { subst path. by rewrite lookup_app_r, Nat.sub_diag by lia. }
    cbn [highlight_from]. rewrite Hnd.
    set (h1 := if (length pre <? length path - 1)%nat then _ else _).
    assert (hl_nodes h1 = hl_nodes h ∧
            ∀ k, k ∈ hl_channels h1 ↔
                 k ∈ hl_channels h ∨
                 ∃ v, path !! S (length pre) = Some v ∧
                      find_index (fun c => joins c x v) channels 0 = Some k) as [Hn1 Hc1].
    { subst h1. destruct (Nat.ltb_spec (length pre) (length path - 1)) as [Hlt|Hge].
      - destruct (path !! S (length pre)) as [next|] eqn:Hnext.
        + destruct (find_index _ channels 0) as [k0|] eqn:Hfind; cbn.
          * split; [done|]. intros k. rewrite elem_of_union, elem_of_singleton. split.
            -- intros [->|?]; [right; by exists next|by left].
            -- intros [?|(v & Hv & Hk)]; [by right|]. left.
               injection Hv as <-. rewrite Hfind in Hk. congruence.
          * split; [done|]. intros k. split; [by left|].
            intros [?|(v & Hv & Hk)]; [done|].
            injection Hv as <-. rewrite Hfind in Hk. congruence.
        + split; [done|]. intros k. split; [by left|]. by intros [?|(v & Hv & _)].
      - split; [done|]. intros k. split; [by left|]. intros [?|(v & Hv & _)]; [done|].
        apply lookup_lt_Some in Hv. lia. }
    destruct (IH (pre ++ [x])
                 (mkHl ({[Z.to_nat x]} ∪ hl_nodes h1) (hl_channels h1)))
      as (h' & Hrun & Hnodes & Hchans); [by rewrite <- (assoc_L (++))|done|].
    rewrite length_app in Hrun. cbn [length] in Hrun.
    replace (length pre + 1)%nat with (S (length pre)) in Hrun by lia.
    exists h'. split; [done|]. split.
    + intros i. rewrite Hnodes. cbn [hl_nodes]. rewrite elem_of_union, elem_of_singleton, Hn1.
      split.
      * intros [[->|?]|(v & Hv & ->)]; [right; exists x; split; [left|done]|by left|].
        right. exists v. split; [by right|done].
      * intros [?|(v & Hv & ->)]; [left; by right|].
        apply elem_of_cons in Hv as [->|Hv]; [left; by left|right; by exists v].
    + intros k. rewrite Hchans. cbn [hl_channels]. rewrite Hc1.
      rewrite length_app. cbn [length]. split.
      * intros [[?|(v & Hv & Hk)]|(j & u & v & Hj & Hu & Hv & Hk)]; [by left| |].
        -- right. exists (length pre), x, v. by repeat split.
        -- right. exists j, u, v. repeat split; [lia|done|done|done].
      * intros [?|(j & u & v & Hj & Hu & Hv & Hk)]; [left; by left|].
        destruct (decide (j = length pre)) as [->|Hne].
        -- left. right. exists v. split; [done|].
           rewrite Hx in Hu. by injection Hu as <-.
        -- right. exists j, u, v. repeat split; [lia|done|done|done].
Qed.

(** With every node of the path in the array, an entry of [animate] before
    the last hop starts that hop, and an entry past it shows the alert. *)
Lemma animate_entry path s t amount sender receiver step :
  Forall (λ v, is_Some (node_at nodes v)) path →
  node_at nodes s = Some sender → node_at nodes t = Some receiver →
  animate Number_toString nodes path s t amount step =
  match path !! step, path !! S step with
  | Some a, Some b => Move a b
  | _, _ => Alert (success_alert Number_toString amount sender receiver)
  end.
Proof.
  intros Hall Hs Ht. unfold animate.
  destruct (Nat.leb_spec (length path - 1) step) as [Hle|Hgt].
  - rewrite Hs, Ht. rewrite (lookup_ge_None_2 path (S step)) by lia.
    by destruct (path !! step).
  - destruct (lookup_lt_is_Some_2 path step) as [a Ha]; [lia|].
    destruct (lookup_lt_is_Some_2 path (S step)) as [b Hb]; [lia|].
    rewrite Ha, Hb.
    destruct (proj1 (Forall_forall _ _) Hall a (list_elem_of_lookup_2 _ _ _ Ha)) as [? ->].
    by destruct (proj1 (Forall_forall _ _) Hall b (list_elem_of_lookup_2 _ _ _ Hb)) as [? ->].
Qed.

(** While the [nodes] array stays the one the payment started on, the
    entries of [animate] move the marker over the hops in order and end
    with the success alert. *)
Lemma animation_moves path s t amount sender receiver fuel step :
  Forall (λ v, is_Some (node_at nodes v)) path →
  node_at nodes s = Some sender → node_at nodes t = Some receiver →
  (length path - 1 - step < fuel)%nat →
  animation Number_toString (fun _ => nodes) path s t amount fuel step
  = zip_with Move (drop step path) (drop (S step) path)
    ++ [Alert (success_alert Number_toString amount sender receiver)].
Proof.
  intros Hall Hs Ht. revert step.
  induction fuel as [|fuel IH]; intros step Hfuel; [lia|].
  cbn [animation]. rewrite (animate_entry path s t amount sender receiver step Hall Hs Ht).
  destruct (path !! step) as [a|] eqn:Ha.
  - destruct (path !! S step) as [b|] eqn:Hb.
    + apply lookup_lt_Some in Hb as Hlen. rewrite IH by lia.
      by rewrite (drop_S path a step Ha), (drop_S path b (S step) Hb).
    + apply lookup_ge_None_1 in Hb. rewrite (drop_ge path (S step)) by lia.
      by destruct (drop step path).
  - apply lookup_ge_None_1 in Ha. by rewrite (drop_ge path step) by lia.
Qed.

Lemma path_nodes_exist s t amount path :
  endpoints_ok channels (Z.of_nat (length nodes)) → in_range (Z.of_nat (length nodes)) s →
  findPathWithCapacity channels s t amount = Some path → path ≠ [] →
  Forall (λ v, is_Some (node_at nodes v)) path.
Proof.
  intros Hok Hs Hr Hne. eapply Forall_impl.
  - apply (reach_in_range channels _ amount s path t Hok Hs). by apply findPath_reach.
  - intros v Hv. by apply node_at_is_Some.
Qed.

Lemma animateTransaction_cases h s t amount :
  no_parallel channels → endpoints_ok channels (Z.of_nat (length nodes)) →
  in_range (Z.of_nat (length nodes)) s → in_range (Z.of_nat (length nodes)) t → s ≠ t →
  ∃ o path,
    animateTransaction Number_toString nodes channels h s t amount = Some o ∧
    findPathWithCapacity channels s t amount = Some path ∧
    (TypeError ∉ events o) ∧
    (not_found path ↔ ¬ ∃ p, eligible_path channels amount s t p) ∧
    (not_found path → o = mkOutcome [Alert (no_path_alert Number_toString amount)] h) ∧
    (¬ not_found path →
       ∃ b sender receiver,
         path !! 1%nat = Some b ∧ events o = [Move s b] ∧
         node_at nodes s = Some sender ∧ node_at nodes t = Some receiver ∧
         animation Number_toString (fun _ => nodes) path s t amount (length path) 0
         = zip_with Move path (drop 1 path)
           ++ [Alert (success_alert Number_toString amount sender receiver)]).
Proof.
  intros Hsimple Hok Hs Ht Hst. unfold not_found.
  destruct (findPathWithCapacity_total amount channels s t) as [path Hr].
  assert (path = [] ↔ ¬ ∃ p, eligible_path channels amount s t p) as Hiff.
  { destruct (findPath_layered _ _ _ _ _ Hsimple Hr) as [Hnone _]. split.
    - intros Hnil (p & Hp). apply path_reach in Hp. by apply (Hnone Hnil p).
    - intros Hno. destruct path as [|x path]; [done|]. destruct Hno.
      exists (x :: path). apply reach_path. by apply findPath_reach. }
  unfold animateTransaction. rewrite (proj2 (Z.eqb_neq s t) Hst), Hr.
  destruct path as [|x path].
  - eexists _, []. split; [reflexivity|]. split; [done|]. split.
    + cbn. apply not_elem_of_cons. split; [done|apply not_elem_of_nil].
    + split; [done|]. split; [done|]. by intros [].
  - cbn [length Nat.eqb].
    assert (Forall (λ v, is_Some (node_at nodes v)) (x :: path)) as Hnodes
      by by apply (path_nodes_exist s t amount).
    pose proof (findPath_reach _ _ _ _ _ Hr ltac:(done)) as Hreach.
    pose proof (reach_head _ _ _ _ _ Hreach) as Hhead.
    pose proof (reach_last _ _ _ _ _ Hreach) as Hlast.
    cbn in Hhead. injection Hhead as ->.
    destruct path as [|b path]; [cbn in Hlast; congruence|].
    destruct (highlight_from_normal (s :: b :: path) [] (s :: b :: path)
                (clearHighlights nodes channels h))
      as (h' & Hrun & _); [done|done|].
    unfold highlightPath. cbn [length] in Hrun. rewrite Hrun.
    apply node_at_is_Some in Hs as [sender Hs]. apply node_at_is_Some in Ht as [receiver Ht].
    rewrite (animate_entry (s :: b :: path) s t amount sender receiver 0 Hnodes Hs Ht).
    cbn [lookup list_lookup].
    eexists _, (s :: b :: path). split; [reflexivity|]. split; [done|]. cbn [events]. split.
    + intros Herr. apply list_elem_of_singleton in Herr. discriminate.
    + split; [done|]. split; [done|]. intros _. exists b, sender, receiver.
      split; [done|]. split; [done|]. split; [done|]. split; [done|].
      by rewrite (animation_moves (s :: b :: path) s t amount sender receiver _ 0 Hnodes Hs Ht)
        by (cbn [length]; lia).
Qed.

(** A payment between two different nodes picked from the dropdowns, on a
    network with at most one channel per pair of valid nodes. The call
    itself never throws; it shows the no-route alert and leaves the
    highlights alone exactly when no path of channels with
    [capacity >= amount] exists; otherwise it starts the marker on the first
    hop of the found path. If the [nodes] array is not replaced while the
    marker runs, the entries of [animate] move it over the hops of the path,
    in order, and end with the success alert naming the two nodes. *)
Theorem animateTransaction_outcome h s t amount :
  no_parallel channels → endpoints_ok channels (Z.of_nat (length nodes)) →
  in_range (Z.of_nat (length nodes)) s → in_range (Z.of_nat (length nodes)) t → s ≠ t →
  ∃ o path,
    animateTransaction Number_toString nodes channels h s t amount = Some o ∧
    findPathWithCapacity channels s t amount = Some path ∧
    (TypeError ∉ events o) ∧
    (not_found path ↔ ¬ ∃ p, eligible_path channels amount s t p) ∧
    (not_found path → o = mkOutcome [Alert (no_path_alert Number_toString amount)] h) ∧
    (¬ not_found path →
       ∃ b sender receiver,
         path !! 1%nat = Some b ∧ events o = [Move s b] ∧
         node_at nodes s = Some sender ∧ node_at nodes t = Some receiver ∧
         animation Number_toString (fun _ => nodes) path s t amount (length path) 0
         = zip_with Move path (drop 1 path)
           ++ [Alert (success_alert Number_toString amount sender receiver)]).
Proof. apply animateTransaction_cases. Qed.

(** After a routed payment, starting from highlights that lie within the
    two arrays, the highlighted nodes are exactly the nodes of the found
    path and the highlighted channels exactly the channels between two
    consecutive nodes of it, each of which carries the amount. *)
Theorem animateTransaction_highlights h s t amount path :
  no_parallel channels → endpoints_ok channels (Z.of_nat (length nodes)) →
  in_range (Z.of_nat (length nodes)) s → s ≠ t →
  (∀ i, i ∈ hl_nodes h → (i < length nodes)%nat) →
  (∀ k, k ∈ hl_channels h → (k < length channels)%nat) →
  findPathWithCapacity channels s t amount = Some path → ¬ not_found path →
  ∃ o, animateTransaction Number_toString nodes channels h s t amount = Some o ∧
    (∀ i, i ∈ hl_nodes (shown o) ↔ Z.of_nat i ∈ path) ∧
    (∀ k, k ∈ hl_channels (shown o) ↔
          ∃ c j u v, channels !! k = Some c ∧ path !! j = Some u ∧ path !! S j = Some v ∧
                     connects c u v) ∧
    (∀ k c, k ∈ hl_channels (shown o) → channels !! k = Some c → amount ≤ capacity c).
Proof.
  intros Hsimple Hok Hs Hst Hhn Hhc Hr Hne. unfold not_found in Hne.
  pose proof (path_nodes_exist s t amount path Hok Hs Hr Hne) as Hnodes.
  pose proof (findPath_reach _ _ _ _ _ Hr Hne) as Hreach.
  unfold animateTransaction.
  rewrite (proj2 (Z.eqb_neq s t) Hst), Hr.
  destruct path as [|x path]; [done|]. cbn [length Nat.eqb].
  destruct (highlight_from_normal (x :: path) [] (x :: path) (clearHighlights nodes channels h))
    as (h' & Hhl & Hn & Hc); [done|done|].
  unfold highlightPath. cbn [length] in Hhl. rewrite Hhl.
  eexists. split; [reflexivity|]. cbn [shown].
  assert (∀ i, i ∉ hl_nodes (clearHighlights nodes channels h)) as Hn0.
  { intros i. cbn. rewrite elem_of_difference, elem_of_list_to_set, elem_of_seq.
    intros [Hi Hout]. apply Hhn in Hi. lia. }
  assert (∀ k, k ∉ hl_channels (clearHighlights nodes channels h)) as Hc0.
  { intros k. cbn. rewrite elem_of_difference, elem_of_list_to_set, elem_of_seq.
    intros [Hk Hout]. apply Hhc in Hk. lia. }
  assert (∀ k, k ∈ hl_channels h' ↔
               ∃ c j u v, channels !! k = Some c ∧ (x :: path) !! j = Some u ∧
                          (x :: path) !! S j = Some v ∧ connects c u v) as Hchan.
  { intros k. rewrite Hc. split.
    - intros [Hk|(j & u & v & _ & Hu & Hv & Hk)]; [by apply Hc0 in Hk|].
      destruct (reach_hops _ _ _ _ _ j u v Hreach Hu Hv) as (c0 & Hin0 & Hc0' & _).
      apply find_index_joins in Hk as (c & Hkc & Hcuv); [|done|by exists c0].
      by exists c, j, u, v.
    - intros (c & j & u & v & Hkc & Hu & Hv & Hcuv). right.
      exists j, u, v. split; [cbn; lia|]. split; [done|]. split; [done|].
      apply find_index_joins; [done| |by exists c].
      exists c. split; [by eapply list_elem_of_lookup_2|done]. }
  split; [|split; [done|]].
  - intros i. rewrite Hn. split.
    + intros [Hi|(v & Hv & ->)]; [by apply Hn0 in Hi|].
      destruct (proj1 (Forall_forall _ _) Hnodes v Hv) as [nd Hnd].
      assert (in_range (Z.of_nat (length nodes)) v) as Hrange
        by (apply node_at_is_Some; by exists nd).
      unfold in_range in Hrange. by rewrite Z2Nat.id by lia.
    + intros Hi. right. exists (Z.of_nat i). split; [done|]. by rewrite Nat2Z.id.
  - intros k c Hk Hkc. apply Hchan in Hk as (c' & j & u & v & Hkc' & Hu & Hv & Hcuv).
    assert (c' = c) as -> by congruence.
    destruct (reach_hops _ _ _ _ _ j u v Hreach Hu Hv) as (c0 & Hin0 & Hc0' & Hcap).
    assert (c0 = c) as ->; [|done].
    apply (NoDup_fmap_elem_inj unordered_pair channels); [done|done| |].
    + by eapply list_elem_of_lookup_2.
    + by rewrite (connects_pair _ _ _ Hc0'), (connects_pair _ _ _ Hcuv).
Qed.
End PaymentFacts.

(** ** Generation, dropdowns and payment together *)
Section Page.
Context (Number_toString : float → string) (random : nat → float).
Hypothesis Hrange : ∀ k, (0 <=? random k)%float = true ∧ (random k <? 1)%float = true.

Lemma generated_nodes n p :
  length (nodes (generateNetwork random n p)) = Z.to_nat n ∧
  ∀ v nd, node_at (nodes (generateNetwork random n p)) v = Some nd →
          in_range n v ∧ textContent nd = label v.
Proof.
  destruct (nodes_created random n) as (Hlen & Hidx & _). cbv zeta in Hlen, Hidx.
  rewrite <- (generateNetwork_nodes random Hrange n p) in Hlen, Hidx.
  split; [done|]. intros v nd Hnd.
  assert (in_range n v) as Hv.
  { assert (is_Some (node_at (nodes (generateNetwork random n p)) v)) as Hsome by by exists nd.
    apply node_at_is_Some in Hsome. unfold in_range in *. lia. }
  split; [done|]. unfold node_at, in_range in *.
  destruct (Z.ltb_spec v 0); [lia|].
  destruct (Hidx v) as (nd' & Hnd' & Hlab); [lia|]. congruence.
Qed.

(** On a freshly generated page, a payment between two different nodes
    offered by the dropdowns: the call never throws; it reports that there
    is no route exactly when no path of channels with [capacity >= amount]
    joins them, and otherwise starts the marker on the first hop of the
    found path. If the page is not regenerated while the marker runs, the
    entries of [animate] run it along the found path and report success
    under the labels of the two nodes. *)
Theorem generated_payment n p h s t amount :
  in_range n s → in_range n t → s ≠ t →
  ∃ o, animateTransaction Number_toString (nodes (generateNetwork random n p))
         (channels (generateNetwork random n p)) h s t amount = Some o ∧
    (TypeError ∉ events o) ∧
    ((¬ ∃ q, eligible_path (channels (generateNetwork random n p)) amount s t q) →
       o = mkOutcome [Alert (no_path_alert Number_toString amount)] h) ∧
    ((∃ q, eligible_path (channels (generateNetwork random n p)) amount s t q) →
       ∃ path b,
         findPathWithCapacity (channels (generateNetwork random n p)) s t amount = Some path ∧
         path !! 1%nat = Some b ∧ events o = [Move s b] ∧
         animation Number_toString (fun _ => nodes (generateNetwork random n p))
           path s t amount (length path) 0
         = zip_with Move path (drop 1 path)
           ++ [Alert ("Payment of "
                      ++ formatCapacity Number_toString (Number_of_Z amount)
                      ++ " successfully sent from Node " ++ label s
                      ++ " to Node " ++ label t)%string]).
Proof.
  intros Hs Ht Hst.
  destruct (generateNetwork_invariant random Hrange n p) as (Hok & Hsimple & _).
  destruct (generated_nodes n p) as [Hlen Hlabel].
  assert (Z.of_nat (length (nodes (generateNetwork random n p))) = n) as Hn.
  { rewrite Hlen. unfold in_range in Hs. lia. }
  destruct (animateTransaction_cases Number_toString (nodes (generateNetwork random n p))
              (channels (generateNetwork random n p)) h s t amount)
    as (o & path & Hrun & Hr & Herr & Hiff & Hnone & Hsome);
    [done|by rewrite Hn|by rewrite Hn|by rewrite Hn|done|].
  exists o. split; [done|]. split; [done|]. split.
  - intros Hno. apply Hnone. by apply Hiff.
  - intros Hyes. exists path.
    destruct Hsome as (b & sender & receiver & Hb & Hev & Hsender & Hreceiver & Hanim).
    { intros Hnf. by apply Hiff in Hnf. }
    exists b. split; [done|]. split; [done|]. split; [done|]. rewrite Hanim.
    unfold success_alert.
    by rewrite (proj2 (Hlabel s sender Hsender)), (proj2 (Hlabel t receiver Hreceiver)).
Qed.

(** Regenerating while the marker runs: [animate] reads the new [nodes]
    array. If the new page has no node at the index of the sender or of the
    receiver, the entry past the last hop throws instead of showing the
    success alert; if it has none at an end of the hop to start, the entry
    for that hop throws. *)
Theorem regenerate_during_payment n p path s t amount step :
  ((length path - 1 ≤ step)%nat → n ≤ s ∨ n ≤ t →
     animate Number_toString (nodes (generateNetwork random n p)) path s t amount step
     = TypeError) ∧
  (∀ a b, path !! step = Some a → path !! S step = Some b → n ≤ a ∨ n ≤ b →
     animate Number_toString (nodes (generateNetwork random n p)) path s t amount step
     = TypeError).
Proof.
  destruct (generated_nodes n p) as [_ Hlabel].
  assert (∀ v, n ≤ v → node_at (nodes (generateNetwork random n p)) v = None) as Hout.
  { intros v Hv. destruct (node_at _ v) as [nd|] eqn:Hnd; [|done].
    apply Hlabel in Hnd as [Hin _]. unfold in_range in Hin. lia. }
  split.
  - intros Hstep Hmiss. unfold animate.
    destruct (Nat.leb_spec (length path - 1) step) as [_|]; [|lia].
    destruct Hmiss as [Hm|Hm]; rewrite (Hout _ Hm); [done|].
    by destruct (node_at _ s).
  - intros a b Ha Hb Hmiss. unfold animate. apply lookup_lt_Some in Hb as Hlen.
    destruct (Nat.leb_spec (length path - 1) step) as [|_]; [lia|].
    rewrite Ha, Hb. destruct Hmiss as [Hm|Hm]; rewrite (Hout _ Hm); [done|].
    by destruct (node_at _ a).
Qed.
End Page.

(** ** Instances *)

Lemma line_net_simple : no_parallel line_net.
Proof. unfold no_parallel. apply (bool_decide_unpack _). vm_compute. exact I. Defined.

Lemma triangle_net_simple : no_parallel triangle_net.
Proof. unfold no_parallel. apply (bool_decide_unpack _). vm_compute. exact I. Defined.

Lemma line_net_endpoints : endpoints_ok line_net 3.
Proof. unfold endpoints_ok, line_net, in_range. repeat constructor; cbn; lia. Defined.

Lemma findPath_smaller_amount_witness :
  ∃ path', findPathWithCapacity triangle_net 0 2 5000000 = Some path' ∧
           ¬ not_found path' ∧ (length path' ≤ length [0; 2])%nat.
Proof.
  apply (findPath_smaller_amount triangle_net 0 2 15000000 5000000 [0; 2]).
  - apply triangle_net_simple.
  - lia.
  - vm_compute. reflexivity.
  - discriminate.
Defined.

Lemma findPath_amount_too_large_witness :
  findPathWithCapacity line_net 0 2 20000000 = Some [].
Proof.
  apply (findPath_amount_too_large line_net 0 2 20000000).
  - unfold line_net. repeat constructor; cbn; lia.
  - lia.
Defined.

Lemma findPath_symmetric_witness :
  (not_found [0; 1; 2] ↔ not_found [2; 1; 0]) ∧ length [0; 1; 2] = length [2; 1; 0].
Proof.
  apply (findPath_symmetric line_net 0 2 5000000 [0; 1; 2] [2; 1; 0]).
  - apply line_net_simple.
  - vm_compute. reflexivity.
  - vm_compute. reflexivity.
Defined.

Lemma findPath_direct_channel_witness :
  findPathWithCapacity triangle_net 0 2 5000000 = Some [0; 2].
Proof.
  apply (findPath_direct_channel triangle_net 0 2 5000000 (Channel.mk 0 2 20000000)).
  - apply triangle_net_simple.
  - unfold triangle_net. repeat constructor.
  - by left.
  - cbn. lia.
  - lia.
Defined.

Lemma findPath_within_network_witness :
  Forall (in_range 3) [0; 1; 2] ∧ (length [0; 1; 2] ≤ Z.to_nat 3)%nat.
Proof.
  apply (findPath_within_network line_net 3 0 2 5000000 [0; 1; 2]).
  - apply line_net_endpoints.
  - unfold in_range. lia.
  - vm_compute. reflexivity.
Defined.

Lemma generateNetwork_storage_order_witness :
  Forall (λ c, start c < end_ c) (channels (generateNetwork draw_mixed 4 0.5)) ∧
  ∀ (a b : nat) ca cb,
    (a < b)%nat →
    channels (generateNetwork draw_mixed 4 0.5) !! a = Some ca →
    channels (generateNetwork draw_mixed 4 0.5) !! b = Some cb →
    stored_before ca cb.
Proof. apply (generateNetwork_storage_order draw_mixed draw_mixed_in_range 4 0.5). Defined.

Lemma generateNetwork_channel_bound_witness :
  2 * Z.of_nat (length (channels (generateNetwork draw_mixed 4 0.5))) ≤ 4 * (4 - 1).
Proof.
  apply (generateNetwork_channel_bound draw_mixed draw_mixed_in_range).
  lia.
Defined.

Lemma generateNetwork_extremes_witness :
  ((1 <=? 1.5)%float = true → ∀ i j, 0 ≤ i → i < j → j < 4 →
     ∃ c, c ∈ channels (generateNetwork draw_half 4 1.5) ∧ start c = i ∧ end_ c = j) ∧
  ((1.5 <=? 0)%float = true → channels (generateNetwork draw_half 4 1.5) = []).
Proof. apply (generateNetwork_extremes draw_half draw_half_in_range). Defined.

Lemma animateTransaction_outcome_witness :
  ∃ o path,
    animateTransaction (fun _ => EmptyString) three_nodes line_net (mkHl ∅ ∅) 0 2 5000000
    = Some o ∧
    findPathWithCapacity line_net 0 2 5000000 = Some path ∧
    (TypeError ∉ events o) ∧
    (not_found path ↔ ¬ ∃ p, eligible_path line_net 5000000 0 2 p) ∧
    (not_found path →
       o = mkOutcome [Alert (no_path_alert (fun _ => EmptyString) 5000000)] (mkHl ∅ ∅)) ∧
    (¬ not_found path →
       ∃ b sender receiver,
         path !! 1%nat = Some b ∧ events o = [Move 0 b] ∧
         node_at three_nodes 0 = Some sender ∧ node_at three_nodes 2 = Some receiver ∧
         animation (fun _ => EmptyString) (fun _ => three_nodes) path 0 2 5000000 (length path) 0
         = zip_with Move path (drop 1 path)
           ++ [Alert (success_alert (fun _ => EmptyString) 5000000 sender receiver)]).
Proof.
  apply (animateTransaction_outcome (fun _ => EmptyString) three_nodes line_net
           (mkHl ∅ ∅) 0 2 5000000).
  - apply line_net_simple.
  - apply line_net_endpoints.
  - unfold in_range. cbn. lia.
  - unfold in_range. cbn. lia.
  - lia.
Defined.

Lemma animateTransaction_highlights_witness :
  ∃ o, animateTransaction (fun _ => EmptyString) three_nodes line_net (mkHl ∅ ∅) 0 2 5000000
       = Some o ∧
    (∀ i, i ∈ hl_nodes (shown o) ↔ Z.of_nat i ∈ [0; 1; 2]) ∧
    (∀ k, k ∈ hl_channels (shown o) ↔
          ∃ c j u v, line_net !! k = Some c ∧ [0; 1; 2] !! j = Some u ∧
                     [0; 1; 2] !! S j = Some v ∧ connects c u v) ∧
    (∀ k c, k ∈ hl_channels (shown o) → line_net !! k = Some c → 5000000 ≤ capacity c).
Proof.
  apply (animateTransaction_highlights (fun _ => EmptyString) three_nodes line_net
           (mkHl ∅ ∅) 0 2 5000000 [0; 1; 2]).
  - apply line_net_simple.
  - apply line_net_endpoints.
  - unfold in_range. cbn. lia.
  - lia.
  - intros i Hi. cbn in Hi. by apply not_elem_of_empty in Hi.
  - intros k Hk. cbn in Hk. by apply not_elem_of_empty in Hk.
  - vm_compute. reflexivity.
  - discriminate.
Defined.

Lemma generated_payment_witness :
  ∃ o, animateTransaction (fun _ => EmptyString)
         (nodes (generateNetwork draw_half 3 1))
         (channels (generateNetwork draw_half 3 1)) (mkHl ∅ ∅) 0 2 5000000 = Some o ∧
    (TypeError ∉ events o) ∧
    ((¬ ∃ q, eligible_path (channels (generateNetwork draw_half 3 1)) 5000000 0 2 q) →
       o = mkOutcome [Alert (no_path_alert (fun _ => EmptyString) 5000000)] (mkHl ∅ ∅)) ∧
    ((∃ q, eligible_path (channels (generateNetwork draw_half 3 1)) 5000000 0 2 q) →
       ∃ path b,
         findPathWithCapacity (channels (generateNetwork draw_half 3 1)) 0 2 5000000
         = Some path ∧
         path !! 1%nat = Some b ∧ events o = [Move 0 b] ∧
         animation (fun _ => EmptyString) (fun _ => nodes (generateNetwork draw_half 3 1))
           path 0 2 5000000 (length path) 0
         = zip_with Move path (drop 1 path)
           ++ [Alert ("Payment of "
                      ++ formatCapacity (fun _ => EmptyString) (Number_of_Z 5000000)
                      ++ " successfully sent from Node " ++ label 0
                      ++ " to Node " ++ label 2)%string]).
Proof.
  apply (generated_payment (fun _ => EmptyString) draw_half draw_half_in_range
           3 1 (mkHl ∅ ∅) 0 2 5000000); unfold in_range; lia.
Defined.

Lemma regenerate_during_payment_witness :
  ((length [0; 1; 2] - 1 ≤ 2)%nat → 2 ≤ 0 ∨ 2 ≤ 2 →
     animate (fun _ => EmptyString) (nodes (generateNetwork draw_half 2 1)) [0; 1; 2] 0 2
       5000000 2 = TypeError) ∧
  (∀ a b, [0; 1; 2] !! 2%nat = Some a → [0; 1; 2] !! 3%nat = Some b → 2 ≤ a ∨ 2 ≤ b →
     animate (fun _ => EmptyString) (nodes (generateNetwork draw_half 2 1)) [0; 1; 2] 0 2
       5000000 2 = TypeError).
Proof.
  apply (regenerate_during_payment (fun _ => EmptyString) draw_half draw_half_in_range
           2 1 [0; 1; 2] 0 2 5000000 2).
Defined.

(** A payment over [0, 1, 2] on three nodes, with the page regenerated on
    two nodes during the first hop: the second entry of [animate] throws. *)
Lemma animation_regenerated :
  animation (fun _ => EmptyString)
    (fun step => if Nat.eqb step 0 then three_nodes else nodes (generateNetwork draw_half 2 1))
    [0; 1; 2] 0 2 5000000 3 0
  = [Move 0 1; TypeError].
Proof. vm_compute. reflexivity. Qed.

(** ** The amount matters only through the channels that carry it *)
Section AmountClass.
Context (channels : list channel) (amount amount' : Z).
Hypothesis Hsame : Forall (λ c, amount ≤ capacity c ↔ amount' ≤ capacity c) channels.

Lemma carries_same c :
  In c channels → (amount <=? capacity c) = (amount' <=? capacity c).
Proof.
  intros Hin. apply list_elem_of_In in Hin.
  apply (proj1 (Forall_forall _ _) Hsame) in Hin.
  destruct (Z.leb_spec amount (capacity c)), (Z.leb_spec amount' (capacity c)); lia.
Qed.

Lemma neighbors_same node : neighbors channels amount node = neighbors channels amount' node.
Proof.
  unfold neighbors. f_equal. apply filter_ext_in. intros c Hin.
  by rewrite (carries_same c Hin).
Qed.

Lemma isPathValid_same path :
  isPathValid channels amount path = isPathValid channels amount' path.
Proof.
  rewrite !isPathValid_hops. induction path as [|u r IH]; [done|].
  cbn [hops_ok]. rewrite IH. f_equal. destruct r as [|v r']; [done|].
  unfold hop_ok. destruct (List.find _ channels) as [ch|] eqn:Hfind; [|done].
  apply find_some in Hfind as [Hin _]. by apply carries_same.
Qed.

Lemma bfs_same t fuel visited queue :
  bfs channels t amount fuel visited queue = bfs channels t amount' fuel visited queue.
Proof.
  revert visited queue. induction fuel as [|fuel IH]; intros visited [|path queue]; try done.
  cbn [bfs]. destruct (last path) as [node|]; [|apply IH].
  rewrite isPathValid_same, neighbors_same.
  destruct ((node =? t) && isPathValid channels amount' path); [done|].
  case_decide; apply IH.
Qed.

(** Two amounts that the same channels carry are routed alike, on any
    channel list: the amount is only ever compared with capacities, so a
    zero or negative amount is searched like any amount every channel
    carries. *)
Theorem findPath_amount_class s t :
  findPathWithCapacity channels s t amount = findPathWithCapacity channels s t amount'.
Proof. apply bfs_same. Qed.
End AmountClass.

Lemma findPath_amount_class_witness :
  findPathWithCapacity line_net 0 2 (-5) = findPathWithCapacity line_net 0 2 10000000.
Proof.
  apply (findPath_amount_class line_net (-5) 10000000).
  unfold line_net. repeat constructor; cbn; lia.
Defined.

(** ** When [highlightPath] throws *)
Section HighlightErrors.
Context (nodes : list node) (channels : list channel).

Lemma highlight_from_Normal_inv path i l h h' :
  highlight_from nodes channels path i l h = Normal h' →
  Forall (λ v, is_Some (node_at nodes v)) l.
Proof.
  revert i h. induction l as [|x l IH]; intros i h Hrun; [constructor|].
  cbn [highlight_from] in Hrun. destruct (node_at nodes x) as [nd|] eqn:Hx; [|done].
  constructor; [by exists nd|]. by eapply IH.
Qed.

(** [highlightPath] ends normally exactly when every node of the path is an
    index of the [nodes] array; otherwise reading [nodes[nodeIndex]] throws. *)
Theorem highlightPath_normal_iff path h :
  (∃ h', highlightPath nodes channels path h = Normal h') ↔
  Forall (in_range (Z.of_nat (length nodes))) path.
Proof.
  split.
  - intros [h' Hrun]. apply highlight_from_Normal_inv in Hrun.
    eapply Forall_impl; [done|]. intros v. apply node_at_is_Some.
  - intros Hall.
    destruct (highlight_from_normal nodes channels path [] path h) as (h' & Hrun & _);
      [done| |by exists h'].
    eapply Forall_impl; [done|]. intros v. apply node_at_is_Some.
Qed.
End HighlightErrors.

(** ** Where the nodes are placed *)
Section Placement.
Context (random : nat → float).
Hypothesis Hrange : ∀ k, (0 <=? random k)%float = true ∧ (random k <? 1)%float = true.

(** The rounded product of a draw and 760, or 560, stays below it. *)
Lemma scaled_draw k :
  ((0 <=? random k * 760)%float = true ∧ (random k * 760 <? 760)%float = true) ∧
  ((0 <=? random k * 560)%float = true ∧ (random k * 560 <? 560)%float = true).
Proof.
  destruct (Hrange k) as [Hlo Hhi]. split.
  - apply (scaled_below (random k) 760 6685030696878080 (-43));
      [reflexivity|reflexivity|lia|done|done].
  - apply (scaled_below (random k) 560 4925812092436480 (-43));
      [reflexivity|reflexivity|lia|done|done].
Qed.

(** Every node of a generated network is placed inside the 760 by 560
    area: the doubles stored satisfy [0 <= left < 760] and
    [0 <= top < 560]. *)
Theorem generateNetwork_placement n p nd :
  nd ∈ nodes (generateNetwork random n p) →
  (0 <=? style_left nd)%float = true ∧ (style_left nd <? 760)%float = true ∧
  (0 <=? style_top nd)%float = true ∧ (style_top nd <? 560)%float = true.
Proof.
  rewrite (generateNetwork_nodes random Hrange).
  match goal with |- context [for_range 0 n ?body ?s0] =>
    pose proof (for_range_ind (fun _ s =>
      Forall (λ nd, (0 <=? style_left nd)%float = true ∧ (style_left nd <? 760)%float = true ∧
                    (0 <=? style_top nd)%float = true ∧ (style_top nd <? 560)%float = true)
             (nodes s))
      0 n body s0) as Hloop
  end.
  cbv beta in Hloop. intros Hnd. refine (proj1 (Forall_forall _ _) (Hloop _ _) nd Hnd).
  - constructor.
  - intros i s _ Hall.
    cbv beta iota zeta delta [bind Math_random push_node]. cbn [snd nodes draws].
    apply Forall_app. split; [done|]. apply Forall_singleton. cbn [style_left style_top].
    destruct (scaled_draw (draws s)) as [[? ?] _].
    destruct (scaled_draw (S (draws s))) as [_ [? ?]]. done.
Qed.
End Placement.

Lemma generateNetwork_placement_witness :
  (0 <=? style_left (mkNode "A" 380 280))%float = true ∧
  (style_left (mkNode "A" 380 280) <? 760)%float = true ∧
  (0 <=? style_top (mkNode "A" 380 280))%float = true ∧
  (style_top (mkNode "A" 380 280) <? 560)%float = true.
Proof.
  apply (generateNetwork_placement draw_half draw_half_in_range 2 0).
  vm_compute. apply list_elem_of_here.
Defined.
